(** * pyFind: a shallow embedding of [pyFind.py] and its verified properties

    The development follows the layout of the script:
    - [PyStr]: the few [str] methods the script calls ([replace], [split],
      [strip], [join]);
    - [Re]: the fragment of Python's [re] needed to run the seven literal
      patterns of the script (anchors, character classes, greedy [*] and [+]),
      with [match], [search] and [sub];
    - the sanitizer ([unsafeAsteriks], [unsafeDots] and the rewrites of [main]);
    - the effectful part ([handlePrint], [matchPatterns],
      [handleFunctionExecution], [treeTraverse], [filterStdin], [main]) in a
      writer/exception monad over an explicit description of the host. *)

From Stdlib Require Import String Ascii List ZArith Bool Arith Lia DecimalString.
Import ListNotations.

Local Open Scope string_scope.
Local Open Scope list_scope.

(** ** Python [str] operations *)

Module PyStr.

(** [s.startswith(p)] *)
Fixpoint startswith (p s : string) : bool :=
  match p, s with
  | EmptyString, _ => true
  | String a p', String b s' => Ascii.eqb a b && startswith p' s'
  | String _ _, EmptyString => false
  end.

(** Scanning loop of [s.replace(old, new)] for a non-empty [old]: [skip]
    counts the characters of the occurrence just replaced that remain to be
    dropped. *)
Fixpoint replace_scan (old new : string) (skip : nat) (s : string) : string :=
  match s with
  | EmptyString => EmptyString
  | String c s' =>
      match skip with
      | S k => replace_scan old new k s'
      | O =>
          if startswith old s
          then (new ++ replace_scan old new (String.length old - 1) s')%string
          else String c (replace_scan old new 0 s')
      end
  end.

(** [s.replace("", new)] puts [new] before every character and at the end. *)
Fixpoint interleave (new s : string) : string :=
  match s with
  | EmptyString => new
  | String c s' => (new ++ String c (interleave new s'))%string
  end.

(** [s.replace(old, new)] *)
Definition replace (old new s : string) : string :=
  match old with
  | EmptyString => interleave new s
  | String _ _ => replace_scan old new 0 s
  end.

(** [s.split(sep)] for a one-character separator: the fields between the
    separators, empty fields included. *)
Fixpoint split_on (sep : ascii) (s : string) : list string :=
  match s with
  | EmptyString => [EmptyString]
  | String c s' =>
      if Ascii.eqb c sep then EmptyString :: split_on sep s'
      else match split_on sep s' with
           | f :: fs => String c f :: fs
           | [] => [String c EmptyString]
           end
  end.

(** Truth value of a [str]: non-empty. *)
Definition truthy (s : string) : bool :=
  match s with EmptyString => false | String _ _ => true end.

(** [s.strip('\n')]: newline characters removed at both ends. *)
Definition newline : ascii := "010"%char.

Fixpoint lstrip_nl (s : string) : string :=
  match s with
  | String c s' => if Ascii.eqb c newline then lstrip_nl s' else s
  | EmptyString => EmptyString
  end.

Fixpoint rstrip_nl (s : string) : string :=
  match s with
  | EmptyString => EmptyString
  | String c s' =>
      match rstrip_nl s' with
      | EmptyString => if Ascii.eqb c newline then EmptyString else String c EmptyString
      | r => String c r
      end
  end.

Definition strip_nl (s : string) : string := rstrip_nl (lstrip_nl s).

(** [sep.join(items)] *)
Fixpoint join (sep : string) (items : list string) : string :=
  match items with
  | [] => EmptyString
  | [x] => x
  | x :: rest => (x ++ sep ++ join sep rest)%string
  end.

(** Does the character occur in the string? *)
Fixpoint occurs (c : ascii) (s : string) : bool :=
  match s with
  | EmptyString => false
  | String x s' => Ascii.eqb x c || occurs c s'
  end.

End PyStr.

(** ** The fragment of Python's [re] used by the script

    Every pattern written in the script is a sequence of anchors and of
    character classes, each class taken once or under a greedy [*] or [+].
    Groups only delimit (there is no back-reference, and match objects are
    only tested against [None]), so they are not represented. *)

Module Re.

Inductive cls : Type :=
| Only (cs : list ascii)     (* [abc], or a single literal character *)
| Except (cs : list ascii).  (* [^abc] *)

Inductive atom : Type :=
| Bol                        (* ^ *)
| Eol                        (* $ *)
| One (k : cls)
| Star (k : cls)             (* k* *)
| Plus (k : cls).            (* k+ *)

Definition regex : Type := list atom.

Definition mem (c : ascii) (cs : list ascii) : bool := existsb (Ascii.eqb c) cs.

Definition accepts (k : cls) (c : ascii) : bool :=
  match k with
  | Only cs => mem c cs
  | Except cs => negb (mem c cs)
  end.

(** Without [re.MULTILINE], [$] matches at the end of the subject and just
    before a newline that ends it. *)
Definition at_eol (s : string) : bool :=
  match s with
  | EmptyString => true
  | String c EmptyString => Ascii.eqb c PyStr.newline
  | _ => false
  end.

(** Greedy repetition of a class followed by the continuation [k]: take as
    many characters as possible, give them back one at a time while the
    continuation fails. [bos] tells whether the position is the beginning of
    the subject. *)
Fixpoint greedy (c : cls) (k : bool -> string -> option string)
         (bos : bool) (s : string) : option string :=
  match s with
  | String x s' =>
      if accepts c x then
        match greedy c k false s' with
        | Some t => Some t
        | None => k bos s
        end
      else k bos s
  | EmptyString => k bos s
  end.

(** [run r bos s]: the backtracking matcher tries [r] at the beginning of
    [s] and returns what is left of [s] after the first match in priority
    order, if there is one. *)
Fixpoint run (r : regex) : bool -> string -> option string :=
  match r with
  | [] => fun _ s => Some s
  | a :: r' =>
      let k := run r' in
      match a with
      | Bol => fun bos s => if bos then k bos s else None
      | Eol => fun bos s => if at_eol s then k bos s else None
      | One c => fun _ s =>
          match s with
          | String x s' => if accepts c x then k false s' else None
          | EmptyString => None
          end
      | Star c => greedy c k
      | Plus c => fun _ s =>
          match s with
          | String x s' => if accepts c x then greedy c k false s' else None
          | EmptyString => None
          end
      end
  end.

(** [re.match(r, s)]: a match object (here, the rest of the subject) or
    [None]. *)
Definition re_match (r : regex) (s : string) : option string := run r true s.

(** [re.search(r, s)]: first position where [r] matches. *)
Fixpoint search_from (r : regex) (bos : bool) (s : string) : option string :=
  match run r bos s with
  | Some t => Some t
  | None =>
      match s with
      | EmptyString => None
      | String _ s' => search_from r false s'
      end
  end.

Definition re_search (r : regex) (s : string) : option string :=
  search_from r true s.

(** [re.sub(r, repl, s)] for a replacement text without group references:
    leftmost non-overlapping matches are replaced. [skip] counts the
    characters of the last match still to be dropped. *)
Fixpoint sub_from (r : regex) (repl : string) (skip : nat) (bos : bool)
         (s : string) : string :=
  match skip with
  | S n =>
      match s with
      | String _ s' => sub_from r repl n false s'
      | EmptyString => EmptyString
      end
  | O =>
      match run r bos s with
      | Some t =>
          match String.length s - String.length t with
          | O =>
              (repl ++ match s with
                       | String c s' => String c (sub_from r repl 0 false s')
                       | EmptyString => EmptyString
                       end)%string
          | S m =>
              (repl ++ match s with
                       | String _ s' => sub_from r repl m false s'
                       | EmptyString => EmptyString
                       end)%string
          end
      | None =>
          match s with
          | String c s' => String c (sub_from r repl 0 false s')
          | EmptyString => EmptyString
          end
      end
  end.

Definition re_sub (r : regex) (repl s : string) : string :=
  sub_from r repl 0 true s.

(** Truth value of the result of [re.match] / [re.search]. *)
Definition found (m : option string) : bool :=
  match m with Some _ => true | None => false end.

(** A pattern made of ordinary characters only, such as ["posix"]. *)
Fixpoint literal (s : string) : regex :=
  match s with
  | EmptyString => []
  | String c s' => One (Only [c]) :: literal s'
  end.

End Re.

(** ** The pattern sanitizer (lines 54-60 and 242-249 of the script) *)

Definition dot : ascii := "."%char.
Definition star : ascii := "*"%char.
Definition caret : ascii := "^"%char.
Definition backslash : ascii := "\"%char.

(** ['^\*$'] *)
Definition RE_ONLY_STAR : Re.regex :=
  [Re.Bol; Re.One (Re.Only [star]); Re.Eol].

(** ['[^\.]*(\*+)'] *)
Definition RE_STAR_RUN : Re.regex :=
  [Re.Star (Re.Except [dot]); Re.Plus (Re.Only [star])].

(** ['^\.$'] *)
Definition RE_ONLY_DOT : Re.regex :=
  [Re.Bol; Re.One (Re.Only [dot]); Re.Eol].

(** ['([^\\\]\.+)[^\*]*']: after the string literal is read, the class is
    [[^\\]], every character but the backslash. *)
Definition RE_DOT_RUN : Re.regex :=
  [Re.One (Re.Except [backslash]); Re.Plus (Re.Only [dot]);
   Re.Star (Re.Except [star])].

(** ['^\.\*$'] *)
Definition RE_DOT_STAR : Re.regex :=
  [Re.Bol; Re.One (Re.Only [dot]); Re.One (Re.Only [star]); Re.Eol].

(** [r'([\**^\.]\*+)']: the class holds [*], [*], [^] and [.]. *)
Definition RE_SUB_STAR : Re.regex :=
  [Re.One (Re.Only [star; star; caret; dot]); Re.Plus (Re.Only [star])].

(** [r'([\.*^\*]\.+)']: the class holds [.], [*], [^] and [*]. *)
Definition RE_SUB_DOT : Re.regex :=
  [Re.One (Re.Only [dot; star; caret; star]); Re.Plus (Re.Only [dot])].

(** The universal pattern. *)
Definition UNIVERSAL : string := "^.*$".

(** The replacement text ['^\.\*$'] of the second rewrite: in a replacement
    template a backslash before [.] or [*] is not an escape and stays. *)
Definition DOT_REPLACEMENT : string := "^\.\*$".

(** [unsafeAsteriks = lambda txt: re.match('^\*$',txt) or
                                  (re.match('[^\.]*(\*+)',txt) != None)],
    as a truth value. *)
Definition unsafeAsteriks (txt : string) : bool :=
  Re.found (Re.re_match RE_ONLY_STAR txt) || Re.found (Re.re_match RE_STAR_RUN txt).

(** [unsafeDots = lambda txt: re.match('^\.$',txt) or
                              (re.match('([^\\\]\.+)[^\*]*',txt) != None)],
    as a truth value. *)
Definition unsafeDots (txt : string) : bool :=
  Re.found (Re.re_match RE_ONLY_DOT txt) || Re.found (Re.re_match RE_DOT_RUN txt).

(** The three rewrites [main] applies to the pattern before compiling it. *)
Definition canonicalize (regex : string) : string :=
  if Re.found (Re.re_search RE_DOT_STAR regex) then UNIVERSAL else regex.

Definition rewriteAsteriks (regex : string) : string :=
  if unsafeAsteriks regex then Re.re_sub RE_SUB_STAR ".*" regex else regex.

Definition rewriteDots (regex : string) : string :=
  if unsafeDots regex then Re.re_sub RE_SUB_DOT DOT_REPLACEMENT regex else regex.

Definition sanitize (regex : string) : string :=
  rewriteDots (rewriteAsteriks (canonicalize regex)).

(** ** Constants of the script *)

Definition YELLOW : string := "YELLOW".
Definition GREEN : string := "GREEN".
Definition RED : string := "RED".
Definition WHITE : string := "WHITE".
Definition SUB_KEY : string := "{}".
Definition POSIX_BASED_OS : string := "posix".
Definition WINDOWS_NT : string := "nt".
Definition POSIX_COLORS : list (string * Z) :=
  [(WHITE, 0%Z); (RED, 31%Z); (GREEN, 32%Z); (YELLOW, 33%Z)].
Definition HIGHLIGHT : string := String "027"%char "[".
Definition nl : string := String PyStr.newline EmptyString.

(** ** The host: what the script asks of the interpreter and of the system *)

(** An element of the list returned by [findall]: a string, or a tuple of
    strings when the pattern has several groups. *)
Inductive found_item : Type :=
| MStr (s : string)
| MTuple (parts : list string).

(** A compiled pattern, as far as the script uses it. *)
Record pattern : Type := { findall : string -> list found_item }.

Record host : Type := {
  os_name : string;                         (* os.name *)
  path_exists : string -> bool;             (* os.path.exists *)
  access_r : string -> bool;                (* os.access(p, os.R_OK) *)
  is_dir : string -> bool;                  (* S_ISDIR(os.stat(p).st_mode) *)
  listdir : string -> list string;          (* os.listdir *)
  path_join : string -> string -> string;   (* os.path.join *)
  popen_ok : list string -> bool;           (* does Popen(argv, ...) start? *)
  popen_read : string -> string;            (* os.popen(cmd).read() *)
  encode_error : string -> option string;   (* message of the UnicodeEncodeError
                                               sys.stdout.write raises, if any *)
  py_int : string -> option Z;              (* int(s); None is ValueError *)
  re_compile : string -> Z -> option pattern (* re.compile; None is an error *)
}.

(** ** Effects: a trace of observable events and an outcome *)

Inductive read : Type :=
| Line (s : string)          (* readline returned s *)
| Interrupt                  (* KeyboardInterrupt *)
| Fault (msg : string).      (* any other exception, with its text *)

Inductive event : Type :=
| Stdout (s : string)        (* sys.stdout.write *)
| Stderr (s : string)        (* sys.stderr.write *)
| Findall (text : string)    (* regexCompile.findall(text): the matcher runs *)
| Listdir (p : string)       (* os.listdir(p) *)
| Popen (argv : list string) (* Popen(argv, ...) is called *)
| Shell (cmd : string)       (* os.popen(cmd) *)
| Readline (r : read).       (* sys.stdin.readline() *)

Inductive exn : Type :=
| TypeError
| PopenError (argv : list string)   (* Popen could not start the process *)
| ReError                           (* re.error out of re.compile *)
| SystemExit (code : Z).

Inductive result (A : Type) : Type :=
| Ret (a : A)
| Raise (e : exn)
| OutOfFuel.
Arguments Ret {A} a.
Arguments Raise {A} e.
Arguments OutOfFuel {A}.

Definition M (A : Type) : Type := (list event * result A)%type.

Definition ret {A} (a : A) : M A := ([], Ret a).
Definition raise {A} (e : exn) : M A := ([], Raise e).
Definition emit (e : event) : M unit := ([e], Ret tt).

Definition bind {A B} (m : M A) (f : A -> M B) : M B :=
  match m with
  | (t, Ret a) => let (t', r) := f a in (t ++ t', r)
  | (t, Raise e) => (t, Raise e)
  | (t, OutOfFuel) => (t, OutOfFuel)
  end.

Notation "x <- m ;; k" := (bind m (fun x => k))
  (at level 61, m at next level, right associativity).
Notation "m ;; k" := (bind m (fun _ => k))
  (at level 61, right associativity).

(** [for x in l: body(x)] *)
Fixpoint for_each {A} (l : list A) (body : A -> M unit) : M unit :=
  match l with
  | [] => ret tt
  | x :: rest => body x ;; for_each rest body
  end.

(** ** The script's functions *)

Section Script.

Variable h : host.

(** [SUPPORTS_TERMINAL_COLORING = (re.match(POSIX_BASED_OS, OS_NAME) != None)] *)
Definition SUPPORTS_TERMINAL_COLORING : bool :=
  Re.found (Re.re_match (Re.literal POSIX_BASED_OS) (os_name h)).

(** [re.search(WINDOWS_NT, OS_NAME)], as a truth value. *)
Definition on_windows_nt : bool :=
  Re.found (Re.re_search (Re.literal WINDOWS_NT) (os_name h)).

Definition existantPath (aPath : string) : bool := path_exists h aPath.
Definition hasReadPerm (aPath : string) : bool := access_r h aPath.

(** [handlePrint], on the [str] arguments every caller in the script passes:
    nothing for the empty string, otherwise the text and a newline on the
    standard output, or two messages on the standard error when the text
    cannot be encoded. *)
Definition handlePrint (queriedContent : string) : M unit :=
  if negb (PyStr.truthy queriedContent) then ret tt
  else
    match encode_error h (queriedContent ++ nl)%string with
    | None => emit (Stdout (queriedContent ++ nl)%string)
    | Some msg =>
        emit (Stderr ("UnicodeEncodeError encode while trying to print" ++ nl)%string) ;;
        emit (Stderr msg)
    end.

(** [POSIX_COLORS.get(colorKey, GREEN)], formatted. *)
Fixpoint lookup (key : string) (table : list (string * Z)) : option Z :=
  match table with
  | [] => None
  | (k, v) :: rest => if String.eqb k key then Some v else lookup key rest
  end.

Definition color_code (colorKey : string) : string :=
  match lookup colorKey POSIX_COLORS with
  | Some code => NilEmpty.string_of_int (Z.to_int code)
  | None => GREEN
  end.

(** [colorPatterns]: the text between the colour and the reset sequences. *)
Definition colorPatterns (colorKey text : string) : string :=
  (HIGHLIGHT ++ color_code colorKey ++ "m" ++ text
   ++ HIGHLIGHT ++ color_code WHITE ++ "m")%string.

(** [' '.join(regMatches)]: a tuple among the items is a [TypeError]. *)
Fixpoint strings_of (items : list found_item) : option (list string) :=
  match items with
  | [] => Some []
  | MStr s :: rest => option_map (cons s) (strings_of rest)
  | MTuple _ :: _ => None
  end.

(** [for item in regMatches: text = text.replace(item, colorPatterns(colorKey, item))] *)
Fixpoint highlight (colorKey : string) (items : list found_item) (text : string)
  : M string :=
  match items with
  | [] => ret text
  | MStr item :: rest =>
      highlight colorKey rest (PyStr.replace item (colorPatterns colorKey item) text)
  | MTuple _ :: _ => raise TypeError
  end.

Definition matchPatterns (regexCompile : pattern) (text : string)
           (verbosity onlyPatternsPrinted : bool) (colorKey : string) : M bool :=
  emit (Findall text) ;;
  let regMatches := findall regexCompile text in
  match regMatches with
  | [] => ret false
  | _ :: _ =>
      if onlyPatternsPrinted then
        match strings_of regMatches with
        | None => raise TypeError
        | Some strs =>
            let joinedPatterns := PyStr.join " " strs in
            (if SUPPORTS_TERMINAL_COLORING
             then handlePrint (colorPatterns colorKey joinedPatterns)
             else handlePrint joinedPatterns) ;;
            ret true
        end
      else
        (if verbosity then
           text' <- (if SUPPORTS_TERMINAL_COLORING
                     then highlight colorKey regMatches text
                     else ret text) ;;
           handlePrint text'
         else ret tt) ;;
        ret true
  end.

Definition handleFunctionExecution (action subject : string) : M unit :=
  let cmdText := PyStr.replace SUB_KEY subject action in
  if on_windows_nt then
    emit (Shell cmdText) ;;
    handlePrint (popen_read h cmdText)
  else
    let cmdList := filter PyStr.truthy (PyStr.split_on " "%char cmdText) in
    emit (Popen cmdList) ;;
    if popen_ok h cmdList then ret tt else raise (PopenError cmdList).

(** Truth value of the [action] argument: [None] and [""] are false. *)
Definition action_set (action : option string) : option string :=
  match action with
  | Some a => if PyStr.truthy a then Some a else None
  | None => None
  end.

(** [treeTraverse]. [regexCompile] is [None] for an object without a [match]
    attribute (the default argument). The recursion of the script is bounded
    by [recursionDepth]; here it is driven by [fuel], and [treeTraverse]
    below supplies enough of it. *)
Fixpoint treeTraverse_fuel (fuel : nat) (thePath : string) (recursionDepth : Z)
         (regexCompile : option pattern) (action : option string)
         (verbosity onlyMatches : bool) (colorKey : string) : M unit :=
  match fuel with
  | O => ([], OutOfFuel)
  | S fuel' =>
      match regexCompile with
      | None => emit (Stderr ("Invalid regexCompile: None" ++ nl)%string)
      | Some regex =>
          if (recursionDepth <? 0)%Z then ret tt
          else if negb (existantPath thePath) then
            emit (Stderr (thePath ++ " doesn't exist" ++ nl)%string)
          else if negb (hasReadPerm thePath) then
            emit (Stderr ("No read access to path " ++ thePath)%string)
          else
            patternMatchedTrue <-
              matchPatterns regex thePath verbosity onlyMatches colorKey ;;
            (if patternMatchedTrue then
               match action_set action with
               | Some a => handleFunctionExecution a thePath
               | None => ret tt
               end
             else ret tt) ;;
            let recursionDepth := (recursionDepth - 1)%Z in
            if is_dir h thePath then
              emit (Listdir thePath) ;;
              for_each (listdir h thePath) (fun child =>
                let fullChildPath := path_join h thePath child in
                treeTraverse_fuel fuel' fullChildPath recursionDepth
                  regexCompile action verbosity onlyMatches colorKey)
            else ret tt
      end
  end.

(** A call at depth [d] nests at most [d + 2] calls. *)
Definition fuel_for (recursionDepth : Z) : nat :=
  S (Z.to_nat (recursionDepth + 1)).

Definition treeTraverse (thePath : string) (recursionDepth : Z)
           (regexCompile : option pattern) (action : option string)
           (verbosity onlyMatches : bool) (colorKey : string) : M unit :=
  treeTraverse_fuel (fuel_for recursionDepth) thePath recursionDepth
    regexCompile action verbosity onlyMatches colorKey.

(** One turn of the loop of [filterStdin] after [readline] returned
    [lineIn]: the [else] branch of the [try]. *)
Definition filterLine (regexCompile : pattern) (action : string)
           (verbosity onlyMatches : bool) (colorKey : string)
           (lineIn : string) : M unit :=
  let lineIn := PyStr.strip_nl lineIn in
  patternMatchedTrue <-
    matchPatterns regexCompile lineIn verbosity onlyMatches colorKey ;;
  if patternMatchedTrue && PyStr.truthy action
  then handleFunctionExecution action lineIn
  else ret tt.

(** [filterStdin]. [stdin] lists what the successive calls of [readline]
    do; once the list is used up [readline] returns [""]. *)
Fixpoint filterStdin (regexCompile : pattern) (action : string)
         (verbosity onlyMatches : bool) (colorKey : string)
         (stdin : list read) : M unit :=
  match stdin with
  | [] =>
      emit (Readline (Line "")) ;;
      filterLine regexCompile action verbosity onlyMatches colorKey ""
  | Line lineIn :: rest =>
      emit (Readline (Line lineIn)) ;;
      let stdinReading := negb (String.eqb lineIn "") in
      filterLine regexCompile action verbosity onlyMatches colorKey lineIn ;;
      if stdinReading
      then filterStdin regexCompile action verbosity onlyMatches colorKey rest
      else ret tt
  | Interrupt :: _ =>
      emit (Readline Interrupt) ;;
      handlePrint ("Ctrl-C applied." ++ nl ++ "Exiting now...")%string
  | Fault msg :: _ =>
      emit (Readline (Fault msg)) ;;
      handlePrint msg
  end.

(** The options [cli_parser] returns. [maxdepth] is the integer default or
    the text given on the command line. *)
Inductive optval : Type :=
| OInt (z : Z)
| OStr (s : string).

Record options : Type := {
  targetPath : string;
  regular_expression : string;
  verbosity : bool;
  action : string;
  maxdepth : optval;
  onlyMatches : bool;
  ignoreCase : bool
}.

(** [int(maxdepth)] *)
Definition to_int (v : optval) : option Z :=
  match v with
  | OInt z => Some z
  | OStr s => py_int h s
  end.

Definition RE_UNICODE : Z := 32.
Definition RE_IGNORECASE : Z := 2.

(** Lines 252-255: compile the sanitized pattern, and on any error the
    universal one. *)
Definition compilePattern (regex : string) (regexArgs : Z) : M pattern :=
  match re_compile h regex regexArgs with
  | Some regCompile => ret regCompile
  | None =>
      match re_compile h UNIVERSAL regexArgs with
      | Some regCompile => ret regCompile
      | None => raise ReError
      end
  end.

(** [main], from the parsed options on. *)
Definition main (o : options) (stdin : list read) : M unit :=
  maxdepth <- match to_int (maxdepth o) with
              | Some d => ret d
              | None =>
                  emit (Stderr ("MaxDepth should be an integer." ++ nl
                                ++ "Exiting..." ++ nl)%string) ;;
                  raise (SystemExit (-1))
              end ;;
  (if (maxdepth <? 0)%Z then
     handlePrint ("Illegal maxdepth: range should be >= 0." ++ nl
                  ++ "Exiting..")%string ;;
     raise (SystemExit (-2))
   else ret tt) ;;
  let regexArgs := RE_UNICODE in
  let regexArgs := if ignoreCase o then Z.lor regexArgs RE_IGNORECASE else regexArgs in
  let regex := sanitize (regular_expression o) in
  regCompile <- compilePattern regex regexArgs ;;
  if PyStr.truthy (targetPath o) then
    treeTraverse (targetPath o) maxdepth (Some regCompile) (Some (action o))
      (verbosity o) (onlyMatches o) RED
  else
    filterStdin regCompile (action o) (verbosity o) (onlyMatches o) RED stdin.

End Script.

(** ** A concrete POSIX host, for running the script on examples *)

Module Demo.

(** [posixpath.join] of two components. *)
Fixpoint ends_with_slash (s : string) : bool :=
  match s with
  | EmptyString => false
  | String c EmptyString => Ascii.eqb c "/"
  | String _ s' => ends_with_slash s'
  end.

Definition posix_join (a b : string) : string :=
  if PyStr.startswith "/" b then b
  else if negb (PyStr.truthy a) || ends_with_slash a then (a ++ b)%string
  else (a ++ "/" ++ b)%string.

(** A file system given by the list of its entries. *)
Inductive kind : Type :=
| File
| Dir (children : list string).

Record entry : Type := { readable : bool; what : kind }.

Fixpoint find (p : string) (fs : list (string * entry)) : option entry :=
  match fs with
  | [] => None
  | (q, e) :: rest => if String.eqb q p then Some e else find p rest
  end.

Definition decimal (s : string) : option Z :=
  option_map Z.of_int (NilZero.int_of_string s).

(** The pattern that finds its whole subject, as [^.*$] does on one line. *)
Definition whole : pattern := {| findall := fun text => [MStr text] |}.

(** A stand-in for [re.compile] that knows the universal pattern and
    refuses a pattern that starts with a repetition. *)
Definition compile (regex : string) (flags : Z) : option pattern :=
  if PyStr.startswith "*" regex then None else Some whole.

Definition posix (fs : list (string * entry)) (launches encodes : bool) : host :=
  {| os_name := "posix";
     path_exists := fun p => match find p fs with Some _ => true | None => false end;
     access_r := fun p => match find p fs with Some e => readable e | None => false end;
     is_dir := fun p => match find p fs with
                        | Some {| what := Dir _ |} => true
                        | _ => false
                        end;
     listdir := fun p => match find p fs with
                         | Some {| what := Dir names |} => names
                         | _ => []
                         end;
     path_join := posix_join;
     popen_ok := fun _ => launches;
     popen_read := fun _ => EmptyString;
     encode_error := fun _ => if encodes then None
                              else Some "'utf-8' codec can't encode character";
     py_int := decimal;
     re_compile := compile |}.

(** [d] holds a file [a] and a directory [b], which holds a file [c]. *)
Definition tree : list (string * entry) :=
  [ ("d",     {| readable := true; what := Dir ["a"; "b"] |});
    ("d/a",   {| readable := true; what := File |});
    ("d/b",   {| readable := true; what := Dir ["c"] |});
    ("d/b/c", {| readable := true; what := File |}) ].

(** The same, where [d/a] cannot be read. *)
Definition tree_locked : list (string * entry) :=
  [ ("d",     {| readable := true; what := Dir ["a"; "b"] |});
    ("d/a",   {| readable := false; what := File |});
    ("d/b",   {| readable := true; what := Dir ["c"] |});
    ("d/b/c", {| readable := true; what := File |}) ].

End Demo.

(** ** Vocabulary of the specification *)

(** The first [*] of the text comes before its first [.]. *)
Fixpoint star_before_dot (txt : string) : bool :=
  match txt with
  | EmptyString => false
  | String c rest =>
      if Ascii.eqb c star then true
      else if Ascii.eqb c dot then false
      else star_before_dot rest
  end.

Definition starts_with (c : ascii) (txt : string) : bool :=
  match txt with
  | String x _ => Ascii.eqb x c
  | EmptyString => false
  end.






(** The canonical form [.*], alone or before a final newline. *)
Definition is_dot_star (txt : string) : bool :=
  String.eqb txt ".*" || String.eqb txt (".*" ++ nl).

Fixpoint ends_with (c : ascii) (txt : string) : bool :=
  match txt with
  | EmptyString => false
  | String x EmptyString => Ascii.eqb x c
  | String _ rest => ends_with c rest
  end.

(** The detection rule in the words of the specification: the pattern is
    exactly [*], or it contains somewhere a run of [*] that is not
    immediately preceded by a [.] ([before] is what precedes the run). *)
Definition claimed_unsafe_asterisk (txt : string) : Prop :=
  txt = "*" \/
  exists before after,
    txt = (before ++ String star after)%string /\
    ends_with star before = false /\ ends_with dot before = false.

(** The text occurs in the string. *)
Fixpoint contains (old s : string) : bool :=
  PyStr.startswith old s
  || match s with
     | EmptyString => false
     | String _ s' => contains old s'
     end.

(** Splitting on whitespace in the words of the specification: the maximal
    runs of characters that are not whitespace. *)
Definition is_space (c : ascii) : bool :=
  Re.mem c [" "; "009"; "010"; "011"; "012"; "013"]%char.

Fixpoint whitespace_fields (s : string) : list string :=
  match s with
  | EmptyString => [EmptyString]
  | String c s' =>
      if is_space c then EmptyString :: whitespace_fields s'
      else match whitespace_fields s' with
           | f :: fs => String c f :: fs
           | [] => [String c EmptyString]
           end
  end.

Definition whitespace_tokens (s : string) : list string :=
  filter PyStr.truthy (whitespace_fields s).

Section Tree.

Variable h : host.

(** The entries [k] levels below a path in the directory tree: the children
    of a directory are the joined names [os.listdir] gives. *)
Fixpoint level (k : nat) (p : string) : list string :=
  match k with
  | O => [p]
  | S k' =>
      if is_dir h p
      then flat_map (fun child => level k' (path_join h p child)) (listdir h p)
      else []
  end.

(** Every entry down to level [d] exists and can be read. *)
Definition accessible_to (d : Z) (root : string) : Prop :=
  forall k q, (Z.of_nat k <= d)%Z -> In q (level k root) ->
              path_exists h q = true /\ access_r h q = true.

End Tree.


Definition is_output (e : event) : bool :=
  match e with Stdout _ | Stderr _ => true | _ => false end.

(** Events the matcher can leave in a trace. *)
Definition matcher_event (e : event) : bool :=
  match e with Findall _ | Stdout _ | Stderr _ => true | _ => false end.

(** Events the action dispatcher can leave in a trace. *)
Definition dispatch_event (e : event) : bool :=
  match e with Popen _ | Shell _ | Stdout _ | Stderr _ => true | _ => false end.

(** The argument list the dispatcher hands to [Popen]. *)
Definition popen_argv (action subject : string) : list string :=
  filter PyStr.truthy (PyStr.split_on " "%char (PyStr.replace SUB_KEY subject action)).

(** A run that ended in the failed launch of [argv]: the call of [Popen] is
    its last event and the exception is its outcome. *)
Definition aborted_at {A} (argv : list string) (r : M A) : Prop :=
  snd r = Raise (PopenError argv) /\ exists t, fst r = t ++ [Popen argv].

(** The turns of the loop of [filterStdin] on lines that are not empty. *)
Definition filterLines (h : host) (regexCompile : pattern) (action : string)
           (verbosity onlyMatches : bool) (colorKey : string)
           (lines : list string) : M unit :=
  for_each lines (fun lineIn =>
    emit (Readline (Line lineIn)) ;;
    filterLine h regexCompile action verbosity onlyMatches colorKey lineIn).

(** The pieces of an action template between the occurrences of [{}]. *)
Fixpoint key_fields (s : string) : list string :=
  match s with
  | EmptyString => [EmptyString]
  | String c s' =>
      match Ascii.eqb c "{", s' with
      | true, String d r =>
          if Ascii.eqb d "}" then EmptyString :: key_fields r
          else match key_fields s' with
               | f :: fs => String c f :: fs
               | [] => [String c EmptyString]
               end
      | _, _ =>
          match key_fields s' with
          | f :: fs => String c f :: fs
          | [] => [String c EmptyString]
          end
      end
  end.

(** ** Vocabulary for the further properties *)

(** The second character is a [.] and the first is not a backslash. *)
Definition dot_second (txt : string) : bool :=
  match txt with
  | String c (String d _) => negb (Ascii.eqb c backslash) && Ascii.eqb d dot
  | _ => false
  end.

(** A [*] that comes immediately after a [*], a [^] or a [.]. *)
Fixpoint star_after_meta (txt : string) : bool :=
  match txt with
  | EmptyString => false
  | String c rest =>
      (Re.mem c [star; star; caret; dot] && starts_with star rest)
      || star_after_meta rest
  end.

(** Texts made of one character only. *)
Fixpoint all_chars (c : ascii) (s : string) : bool :=
  match s with
  | EmptyString => true
  | String x s' => Ascii.eqb x c && all_chars c s'
  end.

(** The pattern finds something in the text. *)
Definition matches (regexCompile : pattern) (text : string) : bool :=
  match findall regexCompile text with [] => false | _ :: _ => true end.

(** [findall] never returns tuples: the pattern has at most one group. *)
Definition only_strings (regexCompile : pattern) : Prop :=
  forall text, strings_of (findall regexCompile text) <> None.

(** What a trace shows: the texts the matcher ran on, the directories
    listed, the argument lists handed to [Popen], all in order. *)
Definition evaluated (t : list event) : list string :=
  flat_map (fun e => match e with Findall q => [q] | _ => [] end) t.

Definition listed (t : list event) : list string :=
  flat_map (fun e => match e with Listdir q => [q] | _ => [] end) t.

Definition launched (t : list event) : list (list string) :=
  flat_map (fun e => match e with Popen argv => [argv] | _ => [] end) t.

Definition is_readline (e : event) : bool :=
  match e with Readline _ => true | _ => false end.

Definition is_listdir (e : event) : bool :=
  match e with Listdir _ => true | _ => false end.


Definition starts_process (e : event) : bool :=
  match e with Popen _ | Shell _ => true | _ => false end.

(** A read after which [filterStdin] stops. *)
Definition stops (r : read) : bool :=
  match r with
  | Line s => String.eqb s ""
  | Interrupt | Fault _ => true
  end.

Section Walk.

Variable h : host.

(** The path passes the two guards of [treeTraverse]. *)
Definition guards_ok (p : string) : bool := path_exists h p && access_r h p.

(** The paths [treeTraverse] is called on with a depth that is not negative,
    in the order of the calls, [k] levels being left below [p]. *)
Fixpoint reach (k : nat) (p : string) : list string :=
  p :: match k with
       | O => []
       | S k' =>
           if guards_ok p && is_dir h p
           then flat_map (fun child => reach k' (path_join h p child)) (listdir h p)
           else []
       end.

(** The entries in pre-order, [k] levels deep, where an entry that does not
    exist or cannot be read is left out with all that is below it. *)
Fixpoint walk (k : nat) (p : string) : list string :=
  if guards_ok p then
    p :: match k with
         | O => []
         | S k' =>
             if is_dir h p
             then flat_map (fun child => walk k' (path_join h p child)) (listdir h p)
             else []
         end
  else [].

(** One call of [treeTraverse] without its recursive calls: the guards, the
    matcher, the action and the listing. *)
Definition visit (regex : pattern) (action : option string)
           (verbosity onlyMatches : bool) (colorKey : string)
           (thePath : string) : M unit :=
  if negb (path_exists h thePath) then
    emit (Stderr (thePath ++ " doesn't exist" ++ nl)%string)
  else if negb (access_r h thePath) then
    emit (Stderr ("No read access to path " ++ thePath)%string)
  else
    patternMatchedTrue <-
      matchPatterns h regex thePath verbosity onlyMatches colorKey ;;
    (if patternMatchedTrue then
       match action_set action with
       | Some a => handleFunctionExecution h a thePath
       | None => ret tt
       end
     else ret tt) ;;
    if is_dir h thePath then emit (Listdir thePath) else ret tt.

(** The action of a visit: launched when the pattern matched and an action
    is configured. *)
Definition act_part (act : option string) (m : bool) (p : string) : M unit :=
  if m then match action_set act with
            | Some a => handleFunctionExecution h a p
            | None => ret tt
            end
  else ret tt.

(** The part of [main] that follows the check of the depth. *)
Definition search (o : options) (maxdepth : Z) (stdin : list read) : M unit :=
  let regexArgs :=
    if ignoreCase o then Z.lor RE_UNICODE RE_IGNORECASE else RE_UNICODE in
  bind (compilePattern h (sanitize (regular_expression o)) regexArgs)
       (fun regCompile =>
          if PyStr.truthy (targetPath o) then
            treeTraverse h (targetPath o) maxdepth (Some regCompile)
              (Some (action o)) (verbosity o) (onlyMatches o) RED
          else
            filterStdin h regCompile (action o) (verbosity o) (onlyMatches o)
              RED stdin).

End Walk.


(** * Verified properties *)

(** ** The matcher on the patterns of the sanitizer *)

Lemma greedy_total c k :
  (forall b s, k b s <> None) -> forall s b, Re.greedy c k b s <> None.
Proof.
  intros Hk s; induction s as [|x s IH]; intros b; simpl.
  - apply Hk.
  - destruct (Re.accepts c x); [|apply Hk].
    destruct (Re.greedy c k false s) eqn:E; [discriminate|].
    exfalso; exact (IH false E).
Qed.

(** [\*+] at the head of a text succeeds exactly when the text starts with [*]. *)
Lemma run_plus_star b s :
  Re.found (Re.run [Re.Plus (Re.Only [star])] b s) = starts_with star s.
Proof.
  destruct s as [|x s]; simpl; [reflexivity|].
  unfold Re.mem; simpl. rewrite orb_false_r.
  destruct (Ascii.eqb x star) eqn:E; [|reflexivity].
  destruct (Re.greedy (Re.Only [star]) (fun _ t => Some t) false s) eqn:G;
    [reflexivity|].
  exfalso; revert G; apply greedy_total; discriminate.
Qed.

Lemma star_run_scan s : forall b,
  Re.found (Re.greedy (Re.Except [dot]) (Re.run [Re.Plus (Re.Only [star])]) b s)
  = star_before_dot s.
Proof.
  induction s as [|x s IH]; intros b.
  - reflexivity.
  - cbn [Re.greedy star_before_dot].
    assert (Hacc : Re.accepts (Re.Except [dot]) x = negb (Ascii.eqb x dot)).
    { unfold Re.accepts, Re.mem; simpl. now rewrite orb_false_r. }
    rewrite Hacc.
    pose proof (run_plus_star b (String x s)) as Hk. cbn [starts_with] in Hk.
    destruct (Ascii.eqb x dot) eqn:Ed; simpl negb; cbv iota.
    + apply Ascii.eqb_eq in Ed; subst x. rewrite Hk. reflexivity.
    + specialize (IH false).
      destruct (Re.greedy (Re.Except [dot]) (Re.run [Re.Plus (Re.Only [star])]) false s) eqn:G.
      * simpl in IH. rewrite <- IH. simpl. now destruct (Ascii.eqb x star).
      * simpl in IH. rewrite <- IH. rewrite Hk. now destruct (Ascii.eqb x star).
Qed.

Lemma only_star_scan txt :
  Re.found (Re.re_match RE_ONLY_STAR txt) = true -> star_before_dot txt = true.
Proof.
  destruct txt as [|x s]; [discriminate|].
  unfold Re.re_match, RE_ONLY_STAR. simpl.
  unfold Re.mem; simpl. rewrite orb_false_r.
  destruct (Ascii.eqb x star); [reflexivity|discriminate].
Qed.

(** The detector computes [star_before_dot]. *)
Lemma unsafeAsteriks_scan txt : unsafeAsteriks txt = star_before_dot txt.
Proof.
  unfold unsafeAsteriks.
  assert (H2 : Re.found (Re.re_match RE_STAR_RUN txt) = star_before_dot txt)
    by apply star_run_scan.
  rewrite H2.
  destruct (Re.found (Re.re_match RE_ONLY_STAR txt)) eqn:E; [|reflexivity].
  simpl. symmetry. now apply only_star_scan.
Qed.

Lemma star_before_dot_split txt :
  star_before_dot txt = true <->
  exists before after,
    txt = (before ++ String star after)%string /\ PyStr.occurs dot before = false.
Proof.
  induction txt as [|x s IH]; simpl.
  - split; [discriminate|]. intros (b & a & H & _). destruct b; discriminate.
  - destruct (Ascii.eqb x star) eqn:Es.
    + apply Ascii.eqb_eq in Es; subst x. split; [|reflexivity].
      intros _. exists "", s. split; reflexivity.
    + destruct (Ascii.eqb x dot) eqn:Ed.
      * split; [discriminate|]. intros (b & a & H & Hb).
        destruct b as [|y b]; simpl in H; injection H as -> ?.
        -- now rewrite Ascii.eqb_refl in Es.
        -- simpl in Hb. now rewrite Ed in Hb.
      * rewrite IH. split.
        -- intros (b & a & -> & Hb). exists (String x b), a. split; [reflexivity|].
           simpl. now rewrite Ed.
        -- intros (b & a & H & Hb).
           destruct b as [|y b]; simpl in H; injection H as -> ?.
           ++ now rewrite Ascii.eqb_refl in Es.
           ++ exists b, a. split; [assumption|]. simpl in Hb.
              now apply orb_false_iff in Hb.
Qed.


Lemma search_bol_false r s : Re.search_from (Re.Bol :: r) false s = None.
Proof. induction s as [|x s IH]; simpl; auto. Qed.

(** The canonical-form test of [main]. *)
Lemma search_dot_star txt :
  Re.found (Re.re_search RE_DOT_STAR txt) = is_dot_star txt.
Proof.
  unfold Re.re_search, RE_DOT_STAR, is_dot_star.
  destruct txt as [|a [|b t]]; try reflexivity.
  - cbn. unfold Re.mem; cbn. unfold dot. destruct (Ascii.eqb a "."); reflexivity.
  - cbn [Re.search_from]. rewrite search_bol_false.
    cbn. unfold Re.mem; cbn. rewrite !orb_false_r.
    unfold dot, star, nl, PyStr.newline.
    destruct (Ascii.eqb a ".") eqn:Ea; [|reflexivity].
    destruct (Ascii.eqb b "*") eqn:Eb; [|reflexivity].
    destruct t as [|c [|d t]]; try reflexivity.
    + cbn. unfold PyStr.newline. destruct (Ascii.eqb c "010"); reflexivity.
    + cbn. now destruct (Ascii.eqb c "010").
Qed.


Lemma sub_from_nomatch r repl b c s :
  Re.run r b (String c s) = None ->
  Re.sub_from r repl 0 b (String c s) = String c (Re.sub_from r repl 0 false s).
Proof. intros H. cbn [Re.sub_from]. now rewrite H. Qed.

Lemma sub_from_match r repl b c s t m :
  Re.run r b (String c s) = Some t ->
  String.length (String c s) - String.length t = S m ->
  Re.sub_from r repl 0 b (String c s) = (repl ++ Re.sub_from r repl m false s)%string.
Proof. intros H L. cbn [Re.sub_from]. rewrite H, L. reflexivity. Qed.


(** What [[\**^\.]\*+] and [[\.*^\*]\.+] need to match: a character of the
    class and then the repeated one. *)
Lemma run_pair_none (cs : list ascii) (y : ascii) b s :
  (forall c x t, s = String c (String x t) -> Re.mem c cs && Ascii.eqb x y = false) ->
  Re.run [Re.One (Re.Only cs); Re.Plus (Re.Only [y])] b s = None.
Proof.
  intros H. destruct s as [|c [|x t]]; simpl.
  - reflexivity.
  - now destruct (Re.mem c cs).
  - specialize (H c x t eq_refl).
    destruct (Re.mem c cs); [|reflexivity]. simpl in H.
    unfold Re.mem; simpl. rewrite orb_false_r. now rewrite H.
Qed.







(** ** The sanitizer *)

(** C5, as stated: the detector would fire on every pattern that holds a [*]
    not immediately preceded by [.]. It does not on [a.b*], whose [*] comes
    after an earlier [.]. *)
Lemma unsafeAsteriks_claim_counterexample :
  claimed_unsafe_asterisk "a.b*" /\ unsafeAsteriks "a.b*" = false.
Proof.
  split; [|reflexivity].
  right. exists "a.b", "". repeat split; reflexivity.
Qed.

(** C5, amended: the unsafe-asterisk detector is true exactly when the pattern
    holds a [*] with no [.] anywhere before it (the pattern [*] is the first
    such case). *)
Theorem unsafeAsteriks_spec (txt : string) :
  unsafeAsteriks txt = true <->
  exists before after,
    txt = (before ++ String star after)%string /\ PyStr.occurs dot before = false.
Proof.
  rewrite unsafeAsteriks_scan. apply star_before_dot_split.
Qed.




(** C4: for the patterns [*] and [.], sanitizing and compiling yields a
    compiled pattern and raises nothing: the sanitizer leaves both as they
    are, the sanitized text is compiled when [re.compile] accepts it, and the
    universal pattern [^.*$] otherwise ([re.compile] accepts the universal
    pattern, as that of CPython does). *)
Theorem compile_star_dot_never_fatal (h : host) (regexArgs : Z) (regex : string)
        (universal : pattern) :
  regex = "*" \/ regex = "." ->
  re_compile h UNIVERSAL regexArgs = Some universal ->
  exists regCompile,
    sanitize regex = regex /\
    compilePattern h (sanitize regex) regexArgs = ([], Ret regCompile) /\
    (re_compile h (sanitize regex) regexArgs = None -> regCompile = universal) /\
    (forall p, re_compile h (sanitize regex) regexArgs = Some p -> regCompile = p).
Proof.
  intros Hr Hu.
  assert (Hs : sanitize regex = regex) by (destruct Hr as [->| ->]; reflexivity).
  unfold compilePattern.
  destruct (re_compile h (sanitize regex) regexArgs) as [p|] eqn:E.
  - exists p. repeat split; [assumption | discriminate | intros q [= ->]; reflexivity].
  - rewrite Hu. exists universal. repeat split; [assumption | discriminate].
Qed.

Lemma compile_star_dot_never_fatal_witness :
  exists regCompile,
    compilePattern (Demo.posix Demo.tree true true) (sanitize "*") 34
    = ([], Ret regCompile).
Proof.
  destruct (compile_star_dot_never_fatal (Demo.posix Demo.tree true true) 34 "*"
              Demo.whole (or_introl eq_refl) eq_refl) as (p & _ & H & _).
  exists p. exact H.
Defined.

(** ** The trace monad *)

Lemma bind_fst {A B} (m : M A) (f : A -> M B) :
  fst (bind m f) = fst m ++ match snd m with Ret a => fst (f a) | _ => [] end.
Proof.
  destruct m as [t [a| |]]; simpl; try now rewrite app_nil_r.
  now destruct (f a).
Qed.

Lemma bind_snd {A B} (m : M A) (f : A -> M B) :
  snd (bind m f) = match snd m with
                   | Ret a => snd (f a)
                   | Raise e => Raise e
                   | OutOfFuel => OutOfFuel
                   end.
Proof. destruct m as [t [a| |]]; simpl; try reflexivity. now destruct (f a). Qed.

Lemma bind_assoc {A B C} (m : M A) (f : A -> M B) (g : B -> M C) :
  bind (bind m f) g = bind m (fun a => bind (f a) g).
Proof.
  destruct m as [t [a| |]]; simpl; try reflexivity.
  destruct (f a) as [t' [b| |]]; simpl; try reflexivity.
  destruct (g b) as [t'' r]. now rewrite app_assoc.
Qed.

Lemma bind_ret_l {A B} (a : A) (f : A -> M B) : bind (ret a) f = f a.
Proof. unfold ret; simpl. now destruct (f a). Qed.

Lemma bind_in {A B} (m : M A) (f : A -> M B) e :
  In e (fst (bind m f)) ->
  In e (fst m) \/ exists a, snd m = Ret a /\ In e (fst (f a)).
Proof.
  rewrite bind_fst. intros H. apply in_app_or in H. destruct H as [H|H]; [auto|].
  destruct (snd m) as [a| |]; [eauto|destruct H..].
Qed.

Lemma bind_in_l {A B} (m : M A) (f : A -> M B) e :
  In e (fst m) -> In e (fst (bind m f)).
Proof. rewrite bind_fst. intros; apply in_or_app; auto. Qed.

Lemma bind_in_r {A B} (m : M A) (f : A -> M B) a e :
  snd m = Ret a -> In e (fst (f a)) -> In e (fst (bind m f)).
Proof. rewrite bind_fst. intros -> ?; apply in_or_app; auto. Qed.

Lemma bind_ret_inv {A B} (m : M A) (f : A -> M B) b :
  snd (bind m f) = Ret b -> exists a, snd m = Ret a /\ snd (f a) = Ret b.
Proof. rewrite bind_snd. destruct (snd m); [eauto|discriminate..]. Qed.

Lemma for_each_in {A} (l : list A) (body : A -> M unit) e :
  In e (fst (for_each l body)) -> exists x, In x l /\ In e (fst (body x)).
Proof.
  induction l as [|x l IH]; simpl; [intros []|].
  intros H. apply bind_in in H. destruct H as [H|(a & _ & H)].
  - exists x; auto.
  - destruct (IH H) as (y & ? & ?). exists y; auto.
Qed.

Lemma for_each_ret {A} (l : list A) (body : A -> M unit) :
  snd (for_each l body) = Ret tt ->
  forall x, In x l ->
    snd (body x) = Ret tt /\ incl (fst (body x)) (fst (for_each l body)).
Proof.
  induction l as [|x l IH]; simpl; [intros _ ? []|].
  intros H. apply bind_ret_inv in H. destruct H as ([] & Hx & Hl).
  intros y [<-|Hy].
  - split; [assumption|]. intros e He. now apply bind_in_l.
  - destruct (IH Hl y Hy) as [H1 H2]. split; [assumption|].
    intros e He. apply (bind_in_r _ _ tt); auto.
Qed.

Lemma for_each_ext {A} (l : list A) (f g : A -> M unit) :
  (forall x, In x l -> f x = g x) -> for_each l f = for_each l g.
Proof.
  induction l as [|x l IH]; simpl; intros H; [reflexivity|].
  rewrite (H x) by auto. rewrite IH; auto.
Qed.

Lemma for_each_fuel {A} (l : list A) (body : A -> M unit) :
  (forall x, In x l -> snd (body x) <> OutOfFuel) ->
  snd (for_each l body) <> OutOfFuel.
Proof.
  induction l as [|x l IH]; simpl; intros H; [discriminate|].
  rewrite bind_snd. specialize (H x (or_introl eq_refl)) as Hx.
  destruct (snd (body x)); [apply IH; auto|discriminate|congruence].
Qed.

(** ** Failed launches *)

Lemma aborted_bind_l {A B} argv (m : M A) (f : A -> M B) :
  aborted_at argv m -> aborted_at argv (bind m f).
Proof.
  intros [Hs [t Ht]]. split.
  - rewrite bind_snd, Hs. reflexivity.
  - exists t. rewrite bind_fst, Hs, app_nil_r. assumption.
Qed.

Lemma aborted_bind_r {A B} argv (m : M A) (f : A -> M B) a :
  snd m = Ret a -> aborted_at argv (f a) -> aborted_at argv (bind m f).
Proof.
  intros Hm [Hs [t Ht]]. split.
  - rewrite bind_snd, Hm. assumption.
  - exists (fst m ++ t). rewrite bind_fst, Hm, Ht, app_assoc. reflexivity.
Qed.

Lemma aborted_bind {A B} argv (m : M A) (f : A -> M B) e :
  In e (fst (bind m f)) ->
  (In e (fst m) -> aborted_at argv m) ->
  (forall a, In e (fst (f a)) -> aborted_at argv (f a)) ->
  aborted_at argv (bind m f).
Proof.
  intros H H1 H2. apply bind_in in H. destruct H as [H|(a & Ha & H)].
  - apply aborted_bind_l; auto.
  - apply (aborted_bind_r _ _ _ a); auto.
Qed.

Lemma aborted_for_each {A} argv (l : list A) (body : A -> M unit) e :
  In e (fst (for_each l body)) ->
  (forall x, In e (fst (body x)) -> aborted_at argv (body x)) ->
  aborted_at argv (for_each l body).
Proof.
  induction l as [|x l IH]; simpl; [intros []|].
  intros H Hb. apply (aborted_bind _ _ _ e H); auto.
Qed.

(** ** Printing, matching and dispatching *)

Section Steps.

Variable h : host.

Lemma handlePrint_snd s : snd (handlePrint h s) = Ret tt.
Proof.
  unfold handlePrint. destruct (PyStr.truthy s); simpl; [|reflexivity].
  destruct (encode_error h _); reflexivity.
Qed.

Lemma handlePrint_events s e :
  In e (fst (handlePrint h s)) -> is_output e = true.
Proof.
  unfold handlePrint. destruct (PyStr.truthy s); simpl; [|intros []].
  destruct (encode_error h _); simpl; intuition (subst; reflexivity).
Qed.



Lemma highlight_fst ck items text : fst (highlight ck items text) = [].
Proof.
  revert text. induction items as [|[s|ps] items IH]; intros text; simpl; auto.
Qed.

Lemma highlight_snd ck items text :
  (exists t, snd (highlight ck items text) = Ret t)
  \/ snd (highlight ck items text) = Raise TypeError.
Proof.
  revert text. induction items as [|[s|ps] items IH]; intros text; simpl; eauto.
Qed.

(** The matcher starts by running the pattern on its text. *)
Lemma matchPatterns_head re text v o ck :
  exists t, fst (matchPatterns h re text v o ck) = Findall text :: t.
Proof. unfold matchPatterns. rewrite bind_fst. simpl. eauto. Qed.

Lemma matchPatterns_in re text v o ck e :
  In e (fst (matchPatterns h re text v o ck)) ->
  e = Findall text \/
  exists s, In e (fst (handlePrint h s)).
Proof.
  unfold matchPatterns. intros H. apply bind_in in H.
  destruct H as [[<-|[]]|([] & _ & H)]; [auto|]. right.
  destruct (findall re text) as [|i rest]; [destruct H|].
  destruct o.
  - destruct (strings_of (i :: rest)); [|destruct H].
    apply bind_in in H. destruct H as [H|(a & _ & [])].
    destruct (SUPPORTS_TERMINAL_COLORING h); eauto.
  - apply bind_in in H. destruct H as [H|(a & _ & [])].
    destruct v; [|destruct H].
    apply bind_in in H. destruct H as [H|(a & _ & H)]; [|eauto].
    destruct (SUPPORTS_TERMINAL_COLORING h); [|destruct H].
    rewrite highlight_fst in H. destruct H.
Qed.

Lemma matchPatterns_events re text v o ck e :
  In e (fst (matchPatterns h re text v o ck)) -> matcher_event e = true.
Proof.
  intros H. apply matchPatterns_in in H. destruct H as [->|(s & H)]; [reflexivity|].
  apply handlePrint_events in H. now destruct e.
Qed.

Lemma matchPatterns_snd re text v o ck :
  (exists b, snd (matchPatterns h re text v o ck) = Ret b)
  \/ snd (matchPatterns h re text v o ck) = Raise TypeError.
Proof.
  unfold matchPatterns. rewrite bind_snd. simpl.
  destruct (findall re text) as [|i rest]; [simpl; eauto|].
  destruct o.
  - destruct (strings_of (i :: rest)); [|simpl; auto].
    rewrite bind_snd.
    destruct (SUPPORTS_TERMINAL_COLORING h); rewrite handlePrint_snd; simpl; eauto.
  - rewrite bind_snd. destruct v; [|simpl; eauto].
    rewrite bind_snd. destruct (SUPPORTS_TERMINAL_COLORING h).
    + destruct (highlight_snd ck (i :: rest) text) as [[t ->]| ->]; [|auto].
      rewrite handlePrint_snd. simpl; eauto.
    + simpl. rewrite handlePrint_snd. simpl; eauto.
Qed.

Lemma handleFunctionExecution_posix action subject :
  on_windows_nt h = false ->
  handleFunctionExecution h action subject
  = ([Popen (popen_argv action subject)],
     if popen_ok h (popen_argv action subject) then Ret tt
     else Raise (PopenError (popen_argv action subject))).
Proof.
  intros Hnt. unfold handleFunctionExecution. rewrite Hnt.
  change (filter PyStr.truthy (PyStr.split_on " " (PyStr.replace SUB_KEY subject action)))
    with (popen_argv action subject).
  generalize (popen_argv action subject). intros argv.
  destruct (popen_ok h argv); reflexivity.
Qed.

Lemma handleFunctionExecution_events action subject e :
  In e (fst (handleFunctionExecution h action subject)) -> dispatch_event e = true.
Proof.
  unfold handleFunctionExecution. destruct (on_windows_nt h); intros H.
  - apply bind_in in H. destruct H as [[<-|[]]|([] & _ & H)]; [reflexivity|].
    apply handlePrint_events in H. now destruct e.
  - apply bind_in in H. destruct H as [[<-|[]]|([] & _ & H)]; [reflexivity|].
    revert H. destruct (popen_ok h _); intros [].
Qed.

Lemma handleFunctionExecution_snd action subject :
  snd (handleFunctionExecution h action subject) = Ret tt
  \/ exists argv, snd (handleFunctionExecution h action subject)
                  = Raise (PopenError argv).
Proof.
  unfold handleFunctionExecution. destruct (on_windows_nt h).
  - rewrite bind_snd. simpl. rewrite handlePrint_snd. auto.
  - rewrite bind_snd. simpl. destruct (popen_ok h _); simpl; eauto.
Qed.

(** A launch that fails ends the dispatcher. *)
Lemma handleFunctionExecution_aborts action subject argv :
  In (Popen argv) (fst (handleFunctionExecution h action subject)) ->
  popen_ok h argv = false ->
  aborted_at argv (handleFunctionExecution h action subject).
Proof.
  destruct (on_windows_nt h) eqn:Hnt.
  - unfold handleFunctionExecution. rewrite Hnt. intros H Hko.
    apply bind_in in H. destruct H as [[H|[]]|([] & _ & H)]; [discriminate|].
    apply handlePrint_events in H. discriminate.
  - rewrite (handleFunctionExecution_posix _ _ Hnt).
    generalize (popen_argv action subject). intros a [H|[]] Hko.
    injection H as ->. rewrite Hko. split; [reflexivity|].
    exists []. reflexivity.
Qed.

End Steps.

(** ** The traversal *)

Section Traversal.

Variable h : host.

(** One call of [treeTraverse] on a usable pattern. *)
Lemma treeTraverse_fuel_step fuel p d re act v o ck :
  treeTraverse_fuel h (S fuel) p d (Some re) act v o ck =
  if (d <? 0)%Z then ret tt
  else if negb (path_exists h p) then
    emit (Stderr (p ++ " doesn't exist" ++ nl)%string)
  else if negb (access_r h p) then
    emit (Stderr ("No read access to path " ++ p)%string)
  else
    bind (matchPatterns h re p v o ck) (fun m =>
    bind (if m then match action_set act with
                    | Some a => handleFunctionExecution h a p
                    | None => ret tt
                    end
          else ret tt) (fun _ =>
    if is_dir h p then
      bind (emit (Listdir p)) (fun _ =>
      for_each (listdir h p) (fun child =>
        treeTraverse_fuel h fuel (path_join h p child) (d - 1)
          (Some re) act v o ck))
    else ret tt)).
Proof. reflexivity. Qed.

Lemma act_events (m : bool) act p e :
  In e (fst (if m then match action_set act with
                       | Some a => handleFunctionExecution h a p
                       | None => ret tt
                       end
             else ret tt)) -> dispatch_event e = true.
Proof.
  destruct m; [|intros []]. destruct (action_set act); [|intros []].
  apply handleFunctionExecution_events.
Qed.

Lemma act_snd (m : bool) act p :
  snd (if m then match action_set act with
                 | Some a => handleFunctionExecution h a p
                 | None => ret tt
                 end
       else ret tt) <> OutOfFuel.
Proof.
  destruct m; [|discriminate]. destruct (action_set act); [|discriminate].
  destruct (handleFunctionExecution_snd h s p) as [-> | [argv ->]]; discriminate.
Qed.

Ltac guards E1 E2 E3 :=
  rewrite treeTraverse_fuel_step;
  match goal with |- context [(?d <? 0)%Z] => destruct (d <? 0)%Z eqn:E1 end;
  [|match goal with |- context [path_exists h ?p] =>
      destruct (path_exists h p) eqn:E2 end;
    [match goal with |- context [access_r h ?p] =>
       destruct (access_r h p) eqn:E3 end|]];
  cbn [negb].

(** Only entries that exist, can be read and are directories are listed. *)
Lemma treeTraverse_listdir_guarded fuel :
  forall p d re act v o ck q,
    In (Listdir q) (fst (treeTraverse_fuel h fuel p d re act v o ck)) ->
    path_exists h q = true /\ access_r h q = true /\ is_dir h q = true.
Proof.
  induction fuel as [|fuel IH]; intros p d re act v o ck q; [intros []|].
  destruct re as [re|]; [|intros [H|[]]; discriminate].
  guards E1 E2 E3; try (intros [H|[]]; discriminate); try (intros []).
  intros H. apply bind_in in H. destruct H as [H|(m & _ & H)].
  { apply matchPatterns_events in H. discriminate. }
  apply bind_in in H. destruct H as [H|(u & _ & H)].
  { apply act_events in H. discriminate. }
  destruct (is_dir h p) eqn:E4; [|destruct H].
  apply bind_in in H. destruct H as [[H|[]]|(u' & _ & H)].
  - injection H as <-. auto.
  - apply for_each_in in H. destruct H as (c & _ & H). eapply IH; eassumption.
Qed.

(** Whatever the matcher runs on lies within the depth budget. *)
Lemma treeTraverse_findall_level fuel :
  forall p d re act v o ck q,
    In (Findall q) (fst (treeTraverse_fuel h fuel p d re act v o ck)) ->
    exists k, (Z.of_nat k <= d)%Z /\ In q (level h k p).
Proof.
  induction fuel as [|fuel IH]; intros p d re act v o ck q; [intros []|].
  destruct re as [re|]; [|intros [H|[]]; discriminate].
  guards E1 E2 E3; try (intros [H|[]]; discriminate); try (intros []).
  intros H. apply bind_in in H. destruct H as [H|(m & _ & H)].
  { apply matchPatterns_in in H. destruct H as [H|(s & H)].
    - injection H as ->. exists 0%nat. split; [simpl; lia|left; reflexivity].
    - apply handlePrint_events in H. discriminate. }
  apply bind_in in H. destruct H as [H|(u & _ & H)].
  { apply act_events in H. discriminate. }
  destruct (is_dir h p) eqn:E4; [|destruct H].
  apply bind_in in H. destruct H as [[H|[]]|(u' & _ & H)]; [discriminate|].
  apply for_each_in in H. destruct H as (c & Hc & H).
  apply IH in H. destruct H as (k & Hk & Hq).
  exists (S k). split; [lia|]. cbn [level]. rewrite E4.
  apply in_flat_map. eauto.
Qed.

Lemma accessible_child d p c :
  is_dir h p = true -> In c (listdir h p) ->
  accessible_to h d p -> accessible_to h (d - 1) (path_join h p c).
Proof.
  intros Hd Hc Ha k q Hk Hq. apply (Ha (S k) q); [lia|].
  cbn [level]. rewrite Hd. apply in_flat_map. eauto.
Qed.

(** A run that ends normally on entries that exist and can be read has
    evaluated every entry within the depth budget. *)
Lemma treeTraverse_complete fuel :
  forall p d re act v o ck,
    snd (treeTraverse_fuel h fuel p d (Some re) act v o ck) = Ret tt ->
    accessible_to h d p ->
    forall k q, (Z.of_nat k <= d)%Z -> In q (level h k p) ->
      In (Findall q) (fst (treeTraverse_fuel h fuel p d (Some re) act v o ck)).
Proof.
  induction fuel as [|fuel IH]; intros p d re act v o ck; [discriminate|].
  intros Hret Hacc k q Hk Hq.
  destruct (Hacc 0%nat p ltac:(lia) (or_introl eq_refl)) as [Hex Hrd].
  rewrite treeTraverse_fuel_step in Hret |- *.
  assert (E1 : (d <? 0)%Z = false) by (apply Z.ltb_ge; lia).
  rewrite E1, Hex, Hrd in Hret |- *. cbn [negb] in Hret |- *.
  apply bind_ret_inv in Hret. destruct Hret as (m & Hm & Hret).
  apply bind_ret_inv in Hret. destruct Hret as ([] & Hact & Hret).
  destruct k as [|k].
  - destruct Hq as [<-|[]]. apply bind_in_l.
    destruct (matchPatterns_head h re p v o ck) as [t ->]. left; reflexivity.
  - cbn [level] in Hq. destruct (is_dir h p) eqn:E4; [|destruct Hq].
    apply in_flat_map in Hq. destruct Hq as (c & Hc & Hq).
    apply (bind_in_r _ _ m _ Hm). apply (bind_in_r _ _ tt _ Hact).
    cbv beta iota. apply (bind_in_r (emit (Listdir p)) _ tt); [reflexivity|].
    apply bind_ret_inv in Hret. destruct Hret as ([] & _ & Hret).
    destruct (for_each_ret _ _ Hret c Hc) as [Hcr Hincl].
    apply Hincl. apply IH with (k := k); auto; [|lia].
    now apply accessible_child.
Qed.

(** A launch that fails is the last thing a traversal does. *)
Lemma treeTraverse_fuel_aborts fuel :
  forall p d re act v o ck argv,
    In (Popen argv) (fst (treeTraverse_fuel h fuel p d re act v o ck)) ->
    popen_ok h argv = false ->
    aborted_at argv (treeTraverse_fuel h fuel p d re act v o ck).
Proof.
  induction fuel as [|fuel IH]; intros p d re act v o ck argv; [intros []|].
  destruct re as [re|]; [|intros [H|[]]; discriminate].
  guards E1 E2 E3; try (intros [H|[]]; discriminate); try (intros []).
  intros H Hko. apply (aborted_bind _ _ _ _ H).
  { intros H1. apply matchPatterns_events in H1. discriminate. }
  intros m H1. apply (aborted_bind _ _ _ _ H1).
  - destruct m; [|intros []]. destruct (action_set act); [|intros []].
    intros H2. now apply handleFunctionExecution_aborts.
  - intros _ H2. destruct (is_dir h p); [|destruct H2].
    apply (aborted_bind _ _ _ _ H2); [intros [H3|[]]; discriminate|].
    intros _ H3. apply (aborted_for_each _ _ _ _ H3).
    intros c H4. now apply IH.
Qed.

(** The fuel [treeTraverse] supplies is never used up. *)
Lemma treeTraverse_fuel_enough fuel :
  forall p d re act v o ck,
    (Z.to_nat (d + 1) < fuel)%nat ->
    snd (treeTraverse_fuel h fuel p d re act v o ck) <> OutOfFuel.
Proof.
  induction fuel as [|fuel IH]; intros p d re act v o ck Hf; [lia|].
  destruct re as [re|]; [|simpl; discriminate].
  guards E1 E2 E3; try (simpl; discriminate).
  rewrite bind_snd.
  destruct (matchPatterns_snd h re p v o ck) as [[m ->]| ->]; [|simpl; discriminate].
  rewrite bind_snd.
  match goal with
  | |- match snd ?t with _ => _ end <> _ =>
      assert (Ha : snd t <> OutOfFuel) by apply act_snd;
      destruct (snd t); [|discriminate|congruence]
  end.
  destruct (is_dir h p); [|simpl; discriminate].
  rewrite bind_snd. simpl snd at 1. cbv iota.
  apply for_each_fuel. intros c _. apply IH.
  apply Z.ltb_ge in E1. lia.
Qed.

(** More fuel than needed does not change a run. *)
Lemma treeTraverse_fuel_irrelevant f1 :
  forall f2 p d re act v o ck,
    (Z.to_nat (d + 1) < f1)%nat -> (Z.to_nat (d + 1) < f2)%nat ->
    treeTraverse_fuel h f1 p d re act v o ck
    = treeTraverse_fuel h f2 p d re act v o ck.
Proof.
  induction f1 as [|f1 IH]; intros f2 p d re act v o ck H1 H2; [lia|].
  destruct f2 as [|f2]; [lia|].
  destruct re as [re|]; [|reflexivity].
  rewrite !treeTraverse_fuel_step.
  destruct (d <? 0)%Z eqn:E1; [reflexivity|].
  apply Z.ltb_ge in E1.
  rewrite (for_each_ext (listdir h p)
             (fun child => treeTraverse_fuel h f1 (path_join h p child) (d - 1)
                             (Some re) act v o ck)
             (fun child => treeTraverse_fuel h f2 (path_join h p child) (d - 1)
                             (Some re) act v o ck)); [reflexivity|].
  intros c _. apply IH; lia.
Qed.

(** [treeTraverse] always comes to an end. *)
Corollary treeTraverse_total p d re act v o ck :
  snd (treeTraverse h p d re act v o ck) <> OutOfFuel.
Proof. apply treeTraverse_fuel_enough. unfold fuel_for. lia. Qed.

End Traversal.

(** ** Substitution and splitting *)

Lemma join_cons sep x y rest :
  PyStr.join sep (x :: y :: rest) = (x ++ sep ++ PyStr.join sep (y :: rest))%string.
Proof. reflexivity. Qed.

Lemma join_push sep c f fs :
  PyStr.join sep (String c f :: fs) = String c (PyStr.join sep (f :: fs)).
Proof. destruct fs; reflexivity. Qed.

Lemma split_on_cons sep s : exists f fs, PyStr.split_on sep s = f :: fs.
Proof.
  destruct s as [|c s]; simpl; [eauto|].
  destruct (Ascii.eqb c sep); [eauto|].
  destruct (PyStr.split_on sep s); eauto.
Qed.

(** [split] cuts at the separators and nowhere else: joining the fields
    gives the text back, and no field holds the separator. *)
Lemma split_on_join sep s :
  PyStr.join (String sep "") (PyStr.split_on sep s) = s.
Proof.
  induction s as [|c s IH]; [reflexivity|]. simpl.
  destruct (split_on_cons sep s) as (f & fs & E). rewrite E in *.
  destruct (Ascii.eqb_spec c sep) as [->|].
  - rewrite join_cons, IH. reflexivity.
  - rewrite join_push, IH. reflexivity.
Qed.

Lemma split_on_fields sep s :
  Forall (fun f => PyStr.occurs sep f = false) (PyStr.split_on sep s).
Proof.
  induction s as [|c s IH]; simpl; [repeat constructor|].
  destruct (Ascii.eqb c sep) eqn:E; [constructor; [reflexivity|assumption]|].
  destruct (PyStr.split_on sep s) as [|f fs].
  - repeat constructor. simpl. now rewrite E.
  - inversion IH; subst. constructor; [|assumption]. simpl. now rewrite E.
Qed.

Lemma filter_truthy_tokens (fields : list string) :
  Forall (fun f => PyStr.occurs " " f = false) fields ->
  Forall (fun t => t <> "" /\ PyStr.occurs " " t = false)
         (filter PyStr.truthy fields).
Proof.
  induction 1 as [|f fs Hf _ IH]; simpl; [constructor|].
  destruct f; simpl; [assumption|]. constructor; [|assumption].
  split; [discriminate|assumption].
Qed.

Lemma key_fields_cons s : exists f fs, key_fields s = f :: fs.
Proof.
  destruct s as [|c s]; [simpl; eauto|]. cbn [key_fields].
  destruct (Ascii.eqb c "{"), s as [|d r];
    try (destruct (Ascii.eqb d "}"));
    try (destruct (key_fields (String d r)));
    try (destruct (key_fields ""));
    eauto.
Qed.

(** The two ways [key_fields] goes through a text. *)
Lemma key_fields_token r : key_fields (String "{" (String "}" r)) = "" :: key_fields r.
Proof. reflexivity. Qed.

Lemma key_fields_other c s :
  PyStr.startswith SUB_KEY (String c s) = false ->
  exists f fs, key_fields s = f :: fs /\ key_fields (String c s) = String c f :: fs.
Proof.
  intros H. destruct (key_fields_cons s) as (f & fs & E). exists f, fs.
  split; [assumption|]. cbn [key_fields]. simpl in H.
  destruct (Ascii.eqb_spec "{" c) as [<-|Hc].
  - simpl in *. destruct s as [|d r]; [rewrite E; reflexivity|].
    destruct (Ascii.eqb_spec "}" d) as [<-|Hd]; [discriminate|].
    assert (Ed : Ascii.eqb d "}" = false) by (apply Ascii.eqb_neq; congruence).
    rewrite Ed, E. reflexivity.
  - assert (Ec : Ascii.eqb c "{" = false) by (apply Ascii.eqb_neq; congruence).
    rewrite Ec, E. reflexivity.
Qed.

Lemma startswith_key s :
  PyStr.startswith SUB_KEY s = true -> exists r, s = String "{" (String "}" r).
Proof.
  unfold SUB_KEY. destruct s as [|c [|d r]]; cbn [PyStr.startswith]; try discriminate.
  - now rewrite andb_false_r.
  - rewrite andb_true_r. intros H. apply andb_true_iff in H. destruct H as [H1 H2].
    apply Ascii.eqb_eq in H1, H2. subst. eauto.
Qed.

(** Strong induction on texts, two characters at a time. *)
Lemma string_ind2 (P : string -> Prop) :
  P "" ->
  (forall c s, P s -> (forall d r, s = String d r -> P r) -> P (String c s)) ->
  forall s, P s.
Proof.
  intros H0 HS.
  assert (H : forall s, P s /\ (forall d r, s = String d r -> P r)).
  { induction s as [|c s [IH1 IH2]].
    - split; [assumption|discriminate].
    - split; [apply HS; assumption|]. intros d r [= _ <-]. assumption. }
  intros s. apply H.
Qed.

Lemma key_fields_join s : PyStr.join SUB_KEY (key_fields s) = s.
Proof.
  induction s as [|c s IH1 IH2] using string_ind2; [reflexivity|].
  destruct (PyStr.startswith SUB_KEY (String c s)) eqn:E.
  - destruct (startswith_key _ E) as (r & Er). injection Er as -> ->.
    rewrite key_fields_token.
    destruct (key_fields_cons r) as (f & fs & Ef). rewrite Ef, join_cons, <- Ef.
    rewrite (IH2 _ r eq_refl). reflexivity.
  - destruct (key_fields_other c s E) as (f & fs & Ef & ->).
    rewrite join_push, <- Ef, IH1. reflexivity.
Qed.

(** [replace] puts the subject where the token was, and nowhere else. *)
Lemma replace_key_fields subject s :
  PyStr.replace SUB_KEY subject s = PyStr.join subject (key_fields s).
Proof.
  unfold PyStr.replace, SUB_KEY.
  induction s as [|c s IH1 IH2] using string_ind2; [reflexivity|].
  destruct (PyStr.startswith SUB_KEY (String c s)) eqn:E.
  - destruct (startswith_key _ E) as (r & Er). injection Er as -> ->.
    rewrite key_fields_token.
    destruct (key_fields_cons r) as (f & fs & Ef). rewrite Ef, join_cons, <- Ef.
    rewrite <- (IH2 _ r eq_refl). reflexivity.
  - destruct (key_fields_other c s E) as (f & fs & Ef & ->).
    rewrite join_push, <- Ef, <- IH1.
    cbn [PyStr.replace_scan]. unfold SUB_KEY in E. rewrite E. reflexivity.
Qed.

Lemma contains_cons old c s :
  contains old (String c s) = PyStr.startswith old (String c s) || contains old s.
Proof. reflexivity. Qed.

Lemma starts_with_field c s f fs :
  key_fields s = f :: fs -> starts_with c f = true -> starts_with c s = true.
Proof.
  destruct s as [|x s].
  - simpl. intros [= <- <-]. discriminate.
  - destruct (PyStr.startswith SUB_KEY (String x s)) eqn:E.
    + destruct (startswith_key _ E) as (r & Er). injection Er as -> ->.
      rewrite key_fields_token. intros [= <- <-]. discriminate.
    + destruct (key_fields_other x s E) as (f' & fs' & _ & ->).
      intros [= <- <-]. simpl. auto.
Qed.

(** No piece holds the token. *)
Lemma key_fields_clean s :
  Forall (fun p => contains SUB_KEY p = false) (key_fields s).
Proof.
  induction s as [|c s IH1 IH2] using string_ind2; [repeat constructor|].
  destruct (PyStr.startswith SUB_KEY (String c s)) eqn:E.
  - destruct (startswith_key _ E) as (r & Er). injection Er as -> ->.
    rewrite key_fields_token. constructor; [reflexivity|]. apply (IH2 _ r eq_refl).
  - destruct (key_fields_other c s E) as (f & fs & Ef & ->).
    rewrite Ef in IH1. inversion IH1; subst. constructor; [|assumption].
    rewrite contains_cons. apply orb_false_iff. split; [|assumption].
    destruct (PyStr.startswith SUB_KEY (String c f)) eqn:E'; [|reflexivity].
    exfalso. destruct (startswith_key _ E') as (r & Er). injection Er as -> ->.
    assert (Hs : starts_with "}" s = true)
      by (apply (starts_with_field _ _ _ _ Ef); reflexivity).
    destruct s as [|d s']; [discriminate|]. simpl in Hs.
    apply Ascii.eqb_eq in Hs; subst d. discriminate.
Qed.

(** ** The traversal: depth and guards *)

(** C1, as stated: every descendant within the depth budget would be
    evaluated in every directory tree. In the tree where [d/a] cannot be
    read, [d/a] is one level below [d] and a traversal of depth 1 does not
    run the matcher on it. *)
Lemma treeTraverse_depth_claim_counterexample :
  let h := Demo.posix Demo.tree_locked true true in
  In "d/a" (level h 1 "d") /\
  ~ In (Findall "d/a")
       (fst (treeTraverse h "d" 1 (Some Demo.whole) None true false RED)).
Proof.
  split.
  - vm_compute. auto.
  - vm_compute. intros H.
    repeat (destruct H as [H|H]; [discriminate H|]). exact H.
Qed.

(** C1, amended: for a depth [D >= 0] and a usable pattern, [treeTraverse]
    never evaluates an entry deeper than [D]; with [D = 0] nothing but the
    root is evaluated; and when every entry down to depth [D] exists and can
    be read and the run raises nothing, the root and every descendant at
    depth at most [D] are evaluated. *)
Theorem treeTraverse_depth (h : host) (root : string) (D : Z) (re : pattern)
        (act : option string) (v o : bool) (ck : string) :
  (0 <= D)%Z ->
  let run := treeTraverse h root D (Some re) act v o ck in
  (forall q, In (Findall q) (fst run) ->
     exists k, (Z.of_nat k <= D)%Z /\ In q (level h k root)) /\
  (D = 0%Z -> forall q, In (Findall q) (fst run) -> q = root) /\
  (accessible_to h D root -> snd run = Ret tt ->
   forall k q, (Z.of_nat k <= D)%Z -> In q (level h k root) ->
     In (Findall q) (fst run)).
Proof.
  intros HD run. split; [|split].
  - intros q Hq. exact (treeTraverse_findall_level h _ _ _ _ _ _ _ _ _ Hq).
  - intros -> q Hq.
    destruct (treeTraverse_findall_level h _ _ _ _ _ _ _ _ _ Hq) as (k & Hk & Hin).
    assert (k = 0%nat) by lia. subst k. destruct Hin as [<-|[]]. reflexivity.
  - intros Hacc Hret k q Hk Hq.
    exact (treeTraverse_complete h _ _ _ _ _ _ _ _ Hret Hacc k q Hk Hq).
Qed.

Lemma demo_tree_accessible :
  accessible_to (Demo.posix Demo.tree true true) 1 "d".
Proof.
  intros k q Hk Hq.
  destruct k as [|[|k]]; [| |lia]; vm_compute in Hq;
    repeat (destruct Hq as [<-|Hq]; [split; reflexivity|]); destruct Hq.
Qed.

Lemma treeTraverse_depth_witness :
  let h := Demo.posix Demo.tree true true in
  let run := treeTraverse h "d" 1 (Some Demo.whole) None true false RED in
  accessible_to h 1 "d" /\ snd run = Ret tt /\ In (Findall "d/b") (fst run).
Proof.
  destruct (treeTraverse_depth (Demo.posix Demo.tree true true) "d" 1 Demo.whole
              None true false RED ltac:(lia)) as (_ & _ & H3).
  split; [exact demo_tree_accessible|]. split; [reflexivity|].
  apply (H3 demo_tree_accessible eq_refl 1%nat "d/b"); [lia|].
  vm_compute. auto.
Defined.

(** C8: only a path that exists, can be read and is a directory has its
    children listed; on an existing readable path that is not a directory,
    [treeTraverse] (with a usable pattern and a depth that is not negative)
    runs the matcher and lists nothing. *)
Theorem treeTraverse_descends_into_directories_only
        (h : host) (p : string) (d : Z) (re : pattern) (act : option string)
        (v o : bool) (ck : string) :
  (forall regexCompile q,
     In (Listdir q) (fst (treeTraverse h p d regexCompile act v o ck)) ->
     path_exists h q = true /\ access_r h q = true /\ is_dir h q = true) /\
  (path_exists h p = true -> access_r h p = true -> is_dir h p = false ->
   (0 <= d)%Z ->
   In (Findall p) (fst (treeTraverse h p d (Some re) act v o ck)) /\
   forall q, ~ In (Listdir q) (fst (treeTraverse h p d (Some re) act v o ck))).
Proof.
  split.
  - intros rc q. apply treeTraverse_listdir_guarded.
  - intros Hex Hrd Hdir Hd. unfold treeTraverse, fuel_for.
    rewrite treeTraverse_fuel_step.
    assert (E1 : (d <? 0)%Z = false) by (apply Z.ltb_ge; lia).
    rewrite E1, Hex, Hrd, Hdir. cbn [negb]. split.
    + apply bind_in_l. destruct (matchPatterns_head h re p v o ck) as [t ->].
      left; reflexivity.
    + intros q H. apply bind_in in H. destruct H as [H|(m & _ & H)].
      { apply matchPatterns_events in H. discriminate. }
      apply bind_in in H. destruct H as [H|(u & _ & [])].
      apply act_events in H. discriminate.
Qed.

Lemma treeTraverse_descends_into_directories_only_witness :
  let h := Demo.posix Demo.tree true true in
  let run := treeTraverse h "d/a" 3 (Some Demo.whole) None true false RED in
  In (Findall "d/a") (fst run) /\ ~ In (Listdir "d/a") (fst run).
Proof.
  intros h run.
  destruct (treeTraverse_descends_into_directories_only
              h "d/a" 3 Demo.whole None true false RED) as [_ H].
  destruct (H eq_refl eq_refl eq_refl ltac:(lia)) as [H1 H2].
  split; [exact H1|apply H2].
Defined.

(** ** The action dispatcher *)

(** C2, as stated: after a launch that fails the traversal would go on with
    the siblings. On a POSIX host where no process can be started, the
    traversal of [d] ends in the exception of [Popen] raised for [d] itself
    and never reaches its children [d/a] and [d/b]. *)
Lemma launch_failure_claim_counterexample :
  let h := Demo.posix Demo.tree false true in
  let run := treeTraverse h "d" 1 (Some Demo.whole) (Some "nosuch {}") true false RED in
  popen_ok h ["nosuch"; "d"] = false /\
  In "d/a" (level h 1 "d") /\ ~ In (Findall "d/a") (fst run) /\
  In "d/b" (level h 1 "d") /\ ~ In (Findall "d/b") (fst run) /\
  snd run = Raise (PopenError ["nosuch"; "d"]).
Proof.
  repeat split; try reflexivity; try (vm_compute; tauto);
    vm_compute; intros H; repeat (destruct H as [H|H]; [discriminate H|]); exact H.
Qed.

(** C2, amended: on a POSIX-like platform a launch that fails is not caught:
    the dispatcher calls [Popen], writes nothing, and raises; a traversal
    that reaches a matched subject with an action configured ends there, with
    that exception, before it lists any child; and in any traversal the
    failed call of [Popen] is the last event. *)
Theorem launch_failure_aborts (h : host) (root : string) (D : Z)
        (re : pattern) (act : option string) (v o : bool) (ck : string)
        (action : string) (argv : list string) :
  on_windows_nt h = false ->
  popen_argv action root = argv ->
  popen_ok h argv = false ->
  handleFunctionExecution h action root = ([Popen argv], Raise (PopenError argv)) /\
  (forall t, (0 <= D)%Z -> path_exists h root = true -> access_r h root = true ->
     matchPatterns h re root v o ck = (t, Ret true) -> action_set act = Some action ->
     treeTraverse h root D (Some re) act v o ck
     = (t ++ [Popen argv], Raise (PopenError argv))) /\
  (forall regexCompile top,
     In (Popen argv) (fst (treeTraverse h top D regexCompile act v o ck)) ->
     snd (treeTraverse h top D regexCompile act v o ck) = Raise (PopenError argv) /\
     exists t, fst (treeTraverse h top D regexCompile act v o ck) = t ++ [Popen argv]).
Proof.
  intros Hnt Hargv Hko.
  assert (Hd : handleFunctionExecution h action root
               = ([Popen argv], Raise (PopenError argv))).
  { rewrite (handleFunctionExecution_posix h _ _ Hnt), Hargv, Hko. reflexivity. }
  split; [exact Hd|]. split.
  - intros t HD Hex Hrd Hm Ha. unfold treeTraverse, fuel_for.
    rewrite treeTraverse_fuel_step.
    assert (E1 : (D <? 0)%Z = false) by (apply Z.ltb_ge; lia).
    rewrite E1, Hex, Hrd, Hm, Ha, Hd. reflexivity.
  - intros rc top H. exact (treeTraverse_fuel_aborts h _ _ _ _ _ _ _ _ _ H Hko).
Qed.

Lemma launch_failure_aborts_witness :
  let h := Demo.posix Demo.tree false true in
  let run := treeTraverse h "d" 1 (Some Demo.whole) (Some "nosuch {}") true false RED in
  handleFunctionExecution h "nosuch {}" "d"
  = ([Popen ["nosuch"; "d"]], Raise (PopenError ["nosuch"; "d"])) /\
  run = ([Findall "d"; Stdout (colorPatterns RED "d" ++ nl)%string;
          Popen ["nosuch"; "d"]],
         Raise (PopenError ["nosuch"; "d"])).
Proof.
  intros h run.
  destruct (launch_failure_aborts h "d" 1 Demo.whole (Some "nosuch {}")
              true false RED "nosuch {}" ["nosuch"; "d"] eq_refl eq_refl eq_refl)
    as (H1 & H2 & _).
  split; [exact H1|].
  apply (H2 [Findall "d"; Stdout (colorPatterns RED "d" ++ nl)%string]);
    try reflexivity. lia.
Defined.

(** C6, as stated: the command line would be split on whitespace. With a
    tab in the template the dispatcher hands [Popen] one argument, where
    splitting on whitespace gives two. *)
Lemma dispatcher_claim_counterexample :
  let h := Demo.posix Demo.tree true true in
  let action := ("echo" ++ String "009" "{}")%string in
  fst (handleFunctionExecution h action "x") = [Popen [("echo" ++ String "009" "x")%string]] /\
  whitespace_tokens (PyStr.replace SUB_KEY "x" action) = ["echo"; "x"].
Proof. split; reflexivity. Qed.

(** C6, amended: the dispatcher replaces every occurrence of [{}] in the
    template by the subject (the pieces of the template around the tokens are
    kept and the subject stands between them), and on a POSIX-like platform
    it splits the command line at each space character, and at no other
    whitespace, drops the empty fields and calls [Popen] on the rest. *)
Theorem dispatcher_command_line (h : host) (action subject : string) :
  on_windows_nt h = false ->
  let pieces := key_fields action in
  let cmdText := PyStr.replace SUB_KEY subject action in
  let fields := PyStr.split_on " " cmdText in
  let cmdList := filter PyStr.truthy fields in
  PyStr.join SUB_KEY pieces = action /\
  Forall (fun p => contains SUB_KEY p = false) pieces /\
  cmdText = PyStr.join subject pieces /\
  PyStr.join " " fields = cmdText /\
  Forall (fun f => PyStr.occurs " " f = false) fields /\
  Forall (fun t => t <> "" /\ PyStr.occurs " " t = false) cmdList /\
  fst (handleFunctionExecution h action subject) = [Popen cmdList].
Proof.
  intros Hnt pieces cmdText fields cmdList. repeat split.
  - apply key_fields_join.
  - apply key_fields_clean.
  - apply replace_key_fields.
  - apply (split_on_join " "%char).
  - apply split_on_fields.
  - apply filter_truthy_tokens, split_on_fields.
  - rewrite (handleFunctionExecution_posix h _ _ Hnt). reflexivity.
Qed.

Lemma dispatcher_command_line_witness :
  let h := Demo.posix Demo.tree true true in
  let action := "cp {}  {}.bak" in
  let subject := "d/a" in
  let pieces := key_fields action in
  let cmdText := PyStr.replace SUB_KEY subject action in
  let fields := PyStr.split_on " " cmdText in
  let cmdList := filter PyStr.truthy fields in
  PyStr.join SUB_KEY pieces = action /\
  Forall (fun p => contains SUB_KEY p = false) pieces /\
  cmdText = PyStr.join subject pieces /\
  PyStr.join " " fields = cmdText /\
  Forall (fun f => PyStr.occurs " " f = false) fields /\
  Forall (fun t => t <> "" /\ PyStr.occurs " " t = false) cmdList /\
  fst (handleFunctionExecution h action subject) = [Popen cmdList].
Proof.
  apply (dispatcher_command_line (Demo.posix Demo.tree true true) "cp {}  {}.bak" "d/a").
  reflexivity.
Defined.

(** ** The matcher's output *)




(** ** The entry point and the filter *)

(** C7: when the maximum depth is not an integer [main] exits with code -1,
    when it is negative with code -2; all it has done before is to write the
    message, so that neither the traversal nor the filter has started. *)
Theorem main_rejects_bad_maxdepth (h : host) (opts : options) (stdin : list read) :
  (to_int h (maxdepth opts) = None ->
   snd (main h opts stdin) = Raise (SystemExit (-1)) /\
   fst (main h opts stdin)
   = [Stderr ("MaxDepth should be an integer." ++ nl ++ "Exiting..." ++ nl)%string]) /\
  (forall d, to_int h (maxdepth opts) = Some d -> (d < 0)%Z ->
   snd (main h opts stdin) = Raise (SystemExit (-2)) /\
   fst (main h opts stdin)
   = fst (handlePrint h ("Illegal maxdepth: range should be >= 0." ++ nl
                         ++ "Exiting..")%string) /\
   forallb is_output (fst (main h opts stdin)) = true).
Proof.
  unfold main. split.
  - intros ->. split; reflexivity.
  - intros d -> Hd. apply Z.ltb_lt in Hd.
    rewrite bind_ret_l, Hd.
    set (msg := ("Illegal maxdepth: range should be >= 0." ++ nl ++ "Exiting..")%string).
    repeat split.
    + rewrite !bind_snd, handlePrint_snd. reflexivity.
    + rewrite !bind_fst, !bind_snd, handlePrint_snd. simpl. now rewrite !app_nil_r.
    + rewrite !bind_fst, !bind_snd, handlePrint_snd. simpl. rewrite !app_nil_r.
      apply forallb_forall. intros e. apply handlePrint_events.
Qed.

Lemma main_rejects_bad_maxdepth_witness :
  let h := Demo.posix Demo.tree true true in
  let opts s := {| targetPath := "d"; regular_expression := ".*"; verbosity := true;
                   action := ""; maxdepth := OStr s; onlyMatches := false;
                   ignoreCase := true |} in
  snd (main h (opts "abc") []) = Raise (SystemExit (-1)) /\
  snd (main h (opts "-1") []) = Raise (SystemExit (-2)) /\
  forallb is_output (fst (main h (opts "-1") [])) = true.
Proof.
  intros h opts.
  destruct (main_rejects_bad_maxdepth h (opts "abc") []) as [H1 _].
  destruct (main_rejects_bad_maxdepth h (opts "-1") []) as [_ H2].
  destruct (H1 eq_refl) as [H1a _].
  destruct (H2 (-1)%Z eq_refl ltac:(lia)) as (H2a & _ & H2c).
  repeat split; assumption.
Defined.

Section Filter.

Variable h : host.

Lemma filterStdin_lines re action v o ck lines :
  Forall (fun l => l <> "") lines ->
  filterStdin h re action v o ck (map Line lines)
  = bind (filterLines h re action v o ck lines)
         (fun _ => bind (emit (Readline (Line "")))
                        (fun _ => filterLine h re action v o ck "")).
Proof.
  induction 1 as [|l ls Hl _ IH].
  - cbn [map filterStdin filterLines for_each]. now rewrite bind_ret_l.
  - cbn [map filterStdin]. unfold filterLines in *. cbn [for_each].
    assert (E : String.eqb l "" = false) by now apply String.eqb_neq.
    rewrite E. cbn [negb]. rewrite IH. rewrite !bind_assoc. reflexivity.
Qed.

End Filter.

(** C10: when [readline] returns the empty string, [filterStdin] still takes
    one turn on it: after the turns on the lines read so far, it runs the
    matcher on the empty string and, when the pattern matches it and an action
    is configured, dispatches the action with the empty string as subject;
    only then does the loop end. *)
Theorem filterStdin_evaluates_at_eof (h : host) (re : pattern) (action : string)
        (v o : bool) (ck : string) (lines : list string) :
  Forall (fun l => l <> "") lines ->
  let before := filterLines h re action v o ck lines in
  let run := filterStdin h re action v o ck (map Line lines) in
  run = bind before (fun _ =>
          bind (emit (Readline (Line ""))) (fun _ =>
          bind (matchPatterns h re "" v o ck) (fun matched =>
          if matched && PyStr.truthy action
          then handleFunctionExecution h action ""
          else ret tt))) /\
  (snd before = Ret tt ->
   In (Readline (Line "")) (fst run) /\ In (Findall "") (fst run) /\
   (snd (matchPatterns h re "" v o ck) = Ret true -> PyStr.truthy action = true ->
    snd run = snd (handleFunctionExecution h action "") /\
    forall e, In e (fst (handleFunctionExecution h action "")) -> In e (fst run))).
Proof.
  intros Hl before run.
  assert (E : run = bind before (fun _ =>
          bind (emit (Readline (Line ""))) (fun _ =>
          bind (matchPatterns h re "" v o ck) (fun matched =>
          if matched && PyStr.truthy action
          then handleFunctionExecution h action ""
          else ret tt)))).
  { unfold run. rewrite (filterStdin_lines h _ _ _ _ _ _ Hl). reflexivity. }
  split; [exact E|]. intros Hb. rewrite E.
  split; [|split; [|intros H H0; split]].
  - apply (bind_in_r _ _ tt _ Hb). apply bind_in_l. left; reflexivity.
  - apply (bind_in_r _ _ tt _ Hb). apply (bind_in_r (emit _) _ tt); [reflexivity|].
    apply bind_in_l. destruct (matchPatterns_head h re "" v o ck) as [t ->].
    left; reflexivity.
  - rewrite !bind_snd, Hb. simpl snd at 1. cbv iota. rewrite H, H0. reflexivity.
  - intros e He. apply (bind_in_r _ _ tt _ Hb).
    apply (bind_in_r (emit _) _ tt); [reflexivity|].
    apply (bind_in_r _ _ true _ H). rewrite H0. exact He.
Qed.

Lemma filterStdin_evaluates_at_eof_witness :
  let h := Demo.posix Demo.tree true true in
  let run := filterStdin h Demo.whole "echo {}" true false RED
               [Line ("a" ++ nl)%string] in
  In (Findall "") (fst run) /\ In (Popen ["echo"]) (fst run) /\ snd run = Ret tt.
Proof.
  intros h run.
  destruct (filterStdin_evaluates_at_eof h Demo.whole "echo {}" true false RED
              [("a" ++ nl)%string]) as [_ H].
  { repeat constructor. discriminate. }
  destruct (H eq_refl) as (_ & H1 & H2).
  destruct (H2 eq_refl eq_refl) as [H3 H4].
  split; [|split].
  - exact H1.
  - apply H4. left; reflexivity.
  - exact H3.
Defined.

(** * Further properties *)

(** ** More on the sanitizer *)

Lemma greedy_some c s : forall b,
  exists t, Re.greedy c (fun _ u => Some u) b s = Some t
            /\ String.length t <= String.length s.
Proof.
  induction s as [|x s IH]; intros b; simpl.
  - exists "". auto.
  - destruct (Re.accepts c x).
    + destruct (IH false) as (t & -> & Hl). exists t. split; [reflexivity|lia].
    + exists (String x s). auto.
Qed.

Lemma run_dot_run b txt :
  Re.found (Re.run RE_DOT_RUN b txt) = dot_second txt.
Proof.
  unfold RE_DOT_RUN, dot_second.
  destruct txt as [|c [|d rest]]; cbn [Re.run].
  - reflexivity.
  - destruct (Re.accepts _ c); reflexivity.
  - assert (Hc : Re.accepts (Re.Except [backslash]) c = negb (Ascii.eqb c backslash)).
    { unfold Re.accepts, Re.mem; simpl. now rewrite orb_false_r. }
    assert (Hd : Re.accepts (Re.Only [dot]) d = Ascii.eqb d dot).
    { unfold Re.accepts, Re.mem; simpl. now rewrite orb_false_r. }
    rewrite Hc, Hd.
    destruct (Ascii.eqb c backslash); [reflexivity|].
    destruct (Ascii.eqb d dot); [|reflexivity]. simpl.
    destruct (Re.greedy (Re.Only [dot])
                (Re.greedy (Re.Except [star]) (fun _ s => Some s)) false rest) eqn:G;
      [reflexivity|].
    exfalso. revert G. apply greedy_total. intros b' s'. apply greedy_total.
    discriminate.
Qed.

Lemma only_dot_match txt :
  Re.found (Re.re_match RE_ONLY_DOT txt)
  = String.eqb txt "." || String.eqb txt ("." ++ nl).
Proof.
  unfold Re.re_match, RE_ONLY_DOT.
  destruct txt as [|a [|b [|c t]]]; cbn; unfold Re.mem; cbn; unfold dot, PyStr.newline.
  - reflexivity.
  - destruct (Ascii.eqb a "."); reflexivity.
  - destruct (Ascii.eqb a "."); [|reflexivity].
    destruct (Ascii.eqb b "010"); reflexivity.
  - destruct (Ascii.eqb a "."); [|reflexivity].
    destruct (Ascii.eqb b "010"); reflexivity.
Qed.

Lemma unsafeDots_scan txt :
  unsafeDots txt
  = (String.eqb txt "." || String.eqb txt ("." ++ nl)) || dot_second txt.
Proof.
  unfold unsafeDots, Re.re_match. rewrite run_dot_run.
  fold (Re.re_match RE_ONLY_DOT txt). now rewrite only_dot_match.
Qed.


Lemma star_after_meta_tail c s :
  star_after_meta (String c s) = false -> star_after_meta s = false.
Proof. cbn [star_after_meta]. intros H. now apply orb_false_iff in H. Qed.

Lemma sub_star_noop s : forall b,
  star_after_meta s = false -> Re.sub_from RE_SUB_STAR ".*" 0 b s = s.
Proof.
  induction s as [|c s IH]; intros b H; [reflexivity|].
  cbn [star_after_meta] in H. apply orb_false_iff in H. destruct H as [H1 H2].
  rewrite sub_from_nomatch.
  - now rewrite IH.
  - apply run_pair_none. intros c0 x t Heq. injection Heq as <- ->. exact H1.
Qed.

(** X2: the asterisk rewrite only touches a [*] that follows a [*], a [^] or a
    [.]: elsewhere a detected [*] stays. *)
Theorem rewriteAsteriks_noop (regex : string) :
  star_after_meta regex = false -> rewriteAsteriks regex = regex.
Proof.
  intros H. unfold rewriteAsteriks. destruct (unsafeAsteriks regex); [|reflexivity].
  now apply sub_star_noop.
Qed.

Lemma rewriteAsteriks_noop_witness :
  unsafeAsteriks "*.c$" = true /\ rewriteAsteriks "*.c$" = "*.c$".
Proof.
  split; [reflexivity|]. apply rewriteAsteriks_noop. reflexivity.
Defined.

Lemma startswith_app p s : PyStr.startswith p (p ++ s) = true.
Proof.
  induction p as [|a p IH]; simpl; [reflexivity|].
  now rewrite Ascii.eqb_refl, IH.
Qed.

Lemma mem_class_perm c :
  Re.mem c [dot; star; caret; star] = Re.mem c [star; star; caret; dot].
Proof.
  unfold Re.mem; simpl.
  now destruct (Ascii.eqb c dot), (Ascii.eqb c star), (Ascii.eqb c caret).
Qed.

(** The asterisk rewrite keeps a head made of a class character and a [.]. *)
Lemma rewriteAsteriks_head c rest :
  Re.mem c [star; star; caret; dot] = true ->
  exists rest', rewriteAsteriks (String c (String dot rest)) = String c (String dot rest').
Proof.
  intros Hc. unfold rewriteAsteriks.
  destruct (unsafeAsteriks _); [|eauto]. unfold Re.re_sub.
  rewrite sub_from_nomatch.
  2:{ apply run_pair_none. intros c0 x t Heq. injection Heq as <- <- <-.
      now rewrite andb_false_r. }
  destruct (Re.run RE_SUB_STAR false (String dot rest)) as [t|] eqn:E.
  - destruct rest as [|x rest].
    + vm_compute in E. discriminate E.
    + assert (Hl : exists m, String.length (String dot (String x rest)) - String.length t = S m).
      { unfold RE_SUB_STAR in E. cbn [Re.run] in E.
        change (Re.accepts (Re.Only [star; star; caret; dot]) dot) with true in E.
        cbv beta iota in E.
        destruct (Re.accepts (Re.Only [star]) x); [|discriminate E].
        destruct (greedy_some (Re.Only [star]) rest false) as (u & Hu & Hlen).
        rewrite Hu in E. injection E as <-.
        exists (S (String.length rest - String.length u)). cbn [String.length]. lia. }
      destruct Hl as (m & Hl).
      rewrite (sub_from_match _ _ _ _ _ t m E Hl). eexists. reflexivity.
  - rewrite (sub_from_nomatch _ _ _ _ _ E). eauto.
Qed.

(** X3: a pattern that starts with [^.], [*.] or [..] comes out of the
    sanitization with the text [^\.\*$] in place of that head. *)
Theorem sanitize_rewrites_head (c : ascii) (rest : string) :
  Re.mem c [dot; star; caret] = true ->
  PyStr.startswith DOT_REPLACEMENT (sanitize (String c (String dot rest))) = true.
Proof.
  intros Hc.
  assert (Hc' : Re.mem c [star; star; caret; dot] = true).
  { revert Hc. unfold Re.mem; simpl.
    now destruct (Ascii.eqb c dot), (Ascii.eqb c star), (Ascii.eqb c caret). }
  assert (Hb : c <> backslash).
  { intros ->. discriminate Hc. }
  unfold sanitize, canonicalize. rewrite search_dot_star.
  assert (Hds : is_dot_star (String c (String dot rest)) = false).
  { unfold is_dot_star, nl. cbn. destruct (Ascii.eqb c "."); reflexivity. }
  rewrite Hds.
  destruct (rewriteAsteriks_head c rest Hc') as (rest' & ->).
  unfold rewriteDots.
  assert (Hu : unsafeDots (String c (String dot rest')) = true).
  { rewrite unsafeDots_scan. apply orb_true_iff. right. simpl.
    apply andb_true_iff. split; [|reflexivity].
    apply negb_true_iff, Ascii.eqb_neq. assumption. }
  rewrite Hu. unfold Re.re_sub.
  destruct (greedy_some (Re.Only [dot]) rest' false) as (u & Hu' & Hlen).
  assert (E : Re.run RE_SUB_DOT true (String c (String dot rest')) = Some u).
  { unfold RE_SUB_DOT. cbn [Re.run]. unfold Re.accepts at 1.
    rewrite mem_class_perm, Hc'. unfold Re.accepts at 1. cbn. exact Hu'. }
  rewrite (sub_from_match _ _ _ _ _ u (S (String.length rest' - String.length u)) E).
  - apply startswith_app.
  - cbn [String.length]. lia.
Qed.

Lemma sanitize_rewrites_head_witness :
  PyStr.startswith DOT_REPLACEMENT (sanitize "*.c$") = true
  /\ sanitize "*.c$" = "^\.\*$c$".
Proof.
  split; [|reflexivity].
  apply (sanitize_rewrites_head "*" "c$"). reflexivity.
Defined.

(** ** More on the action dispatcher *)

Lemma replace_scan_absent old new s :
  contains old s = false -> PyStr.replace_scan old new 0 s = s.
Proof.
  induction s as [|c s IH]; [reflexivity|].
  rewrite contains_cons. intros H. apply orb_false_iff in H. destruct H as [H1 H2].
  cbn [PyStr.replace_scan]. rewrite H1, IH; auto.
Qed.

(** X4: a template without the token [{}] gives the same command whatever the
    subject is. *)
Theorem template_without_token (h : host) (action subject1 subject2 : string) :
  contains SUB_KEY action = false ->
  PyStr.replace SUB_KEY subject1 action = action /\
  handleFunctionExecution h action subject1 = handleFunctionExecution h action subject2.
Proof.
  intros H.
  assert (E : forall subject, PyStr.replace SUB_KEY subject action = action).
  { intros subject. unfold PyStr.replace, SUB_KEY. now apply replace_scan_absent. }
  split; [apply E|]. unfold handleFunctionExecution. now rewrite !E.
Qed.

Lemma template_without_token_witness :
  let h := Demo.posix Demo.tree true true in
  handleFunctionExecution h "date -u" "d/a" = handleFunctionExecution h "date -u" "d/b".
Proof.
  intros h.
  destruct (template_without_token h "date -u" "d/a" "d/b" eq_refl) as [_ H].
  exact H.
Defined.

(** X5: on a POSIX-like platform a subject that holds a space never reaches the
    command as one argument. *)
Theorem subject_with_space_is_split (h : host) (action subject : string)
        (argv : list string) :
  on_windows_nt h = false ->
  PyStr.occurs " " subject = true ->
  In (Popen argv) (fst (handleFunctionExecution h action subject)) ->
  ~ In subject argv.
Proof.
  intros Hnt Hs Hin Hsub.
  rewrite (handleFunctionExecution_posix h _ _ Hnt) in Hin.
  destruct Hin as [Hin|[]]. injection Hin as <-.
  pose proof (filter_truthy_tokens _ (split_on_fields " "%char
                (PyStr.replace SUB_KEY subject action))) as Hall.
  rewrite Forall_forall in Hall. destruct (Hall subject Hsub) as [_ Hno].
  congruence.
Qed.

Lemma subject_with_space_is_split_witness :
  let h := Demo.posix Demo.tree true true in
  In (Popen ["cat"; "my"; "file"]) (fst (handleFunctionExecution h "cat {}" "my file"))
  /\ ~ In "my file" ["cat"; "my"; "file"].
Proof.
  intros h.
  assert (Hin : In (Popen ["cat"; "my"; "file"])
                   (fst (handleFunctionExecution h "cat {}" "my file")))
    by (vm_compute; auto).
  split; [exact Hin|].
  exact (subject_with_space_is_split h "cat {}" "my file" _ eq_refl eq_refl Hin).
Defined.

Lemma tokens_nil s :
  filter PyStr.truthy (PyStr.split_on " " s) = [] <-> all_chars " " s = true.
Proof.
  induction s as [|c s IH]; [simpl; tauto|].
  cbn [PyStr.split_on all_chars].
  destruct (Ascii.eqb c " ") eqn:E.
  - cbn [filter PyStr.truthy]. rewrite IH. simpl. tauto.
  - destruct (split_on_cons " " s) as (f & fs & ->). simpl.
    split; discriminate.
Qed.

(** X6: on a POSIX-like platform [Popen] is called on an empty argument list
    exactly when the command line holds nothing but spaces (as for a template
    made of spaces, which counts as a configured action). *)
Theorem popen_argv_empty (h : host) (action subject : string) :
  on_windows_nt h = false ->
  (fst (handleFunctionExecution h action subject) = [Popen []] <->
   all_chars " " (PyStr.replace SUB_KEY subject action) = true).
Proof.
  intros Hnt. rewrite (handleFunctionExecution_posix h _ _ Hnt).
  unfold popen_argv. cbn [fst]. rewrite <- tokens_nil. split.
  - intros [= H]. exact H.
  - intros ->. reflexivity.
Qed.

Lemma popen_argv_empty_witness :
  let h := Demo.posix Demo.tree true true in
  PyStr.truthy "  " = true /\
  fst (handleFunctionExecution h "  " "d/a") = [Popen []].
Proof.
  intros h. split; [reflexivity|].
  apply (popen_argv_empty h "  " "d/a"); reflexivity.
Defined.

(** ** More on the matcher *)

Section Matcher.

Variable h : host.

Lemma strings_of_highlight ck items : forall strs text,
  strings_of items = Some strs ->
  exists t, highlight ck items text = ([], Ret t).
Proof.
  induction items as [|[s|ps] items IH]; intros strs text H; simpl in *.
  - eexists; reflexivity.
  - destruct (strings_of items) as [l|] eqn:E; [|discriminate H].
    apply (IH l). reflexivity.
  - discriminate H.
Qed.

(** Whenever the matcher returns, it returns whether the pattern found
    something. *)
Lemma matchPatterns_value re text v o ck b :
  snd (matchPatterns h re text v o ck) = Ret b -> b = matches re text.
Proof.
  unfold matchPatterns, matches. rewrite bind_snd. simpl.
  destruct (findall re text) as [|i rest]; [intros [= <-]; reflexivity|].
  destruct o.
  - destruct (strings_of (i :: rest)); [|discriminate].
    rewrite bind_snd.
    destruct (SUPPORTS_TERMINAL_COLORING h); rewrite handlePrint_snd; simpl;
      intros [= <-]; reflexivity.
  - rewrite bind_snd. destruct v; [|simpl; intros [= <-]; reflexivity].
    rewrite bind_snd. destruct (SUPPORTS_TERMINAL_COLORING h).
    + destruct (highlight_snd ck (i :: rest) text) as [[t ->]| ->]; [|discriminate].
      rewrite handlePrint_snd. simpl. intros [= <-]; reflexivity.
    + simpl. rewrite handlePrint_snd. simpl. intros [= <-]; reflexivity.
Qed.

(** With a pattern that yields strings the matcher always returns. *)
Lemma matchPatterns_returns re text v o ck :
  only_strings re ->
  snd (matchPatterns h re text v o ck) = Ret (matches re text).
Proof.
  intros Hs. specialize (Hs text).
  destruct (matchPatterns_snd h re text v o ck) as [[b Hb]|Hraise].
  - rewrite Hb. f_equal. now apply matchPatterns_value in Hb.
  - exfalso. revert Hraise. unfold matchPatterns. rewrite bind_snd. simpl.
    destruct (findall re text) as [|i rest]; [discriminate|].
    destruct (strings_of (i :: rest)) as [strs|] eqn:E; [|congruence].
    destruct o.
    + rewrite bind_snd.
      destruct (SUPPORTS_TERMINAL_COLORING h); rewrite handlePrint_snd; discriminate.
    + rewrite bind_snd. destruct v; [|discriminate].
      rewrite bind_snd. destruct (SUPPORTS_TERMINAL_COLORING h).
      * destruct (strings_of_highlight ck (i :: rest) strs text E) as [t ->].
        simpl. rewrite handlePrint_snd. discriminate.
      * simpl. rewrite handlePrint_snd. discriminate.
Qed.

(** The matcher is silent when nothing is found, and when neither flag is
    set: it then only reports whether the pattern found something, and it
    raises nothing whatever [findall] returns. *)
Theorem matchPatterns_silent (re : pattern) (text : string) (v o : bool)
        (ck : string) :
  matches re text = false \/ (v = false /\ o = false) ->
  matchPatterns h re text v o ck = ([Findall text], Ret (matches re text)).
Proof.
  unfold matchPatterns, matches.
  destruct (findall re text) as [|i rest]; intros H.
  - reflexivity.
  - destruct H as [H|[-> ->]]; [discriminate H|]. reflexivity.
Qed.

Lemma startswith_refl s : PyStr.startswith s s = true.
Proof. induction s as [|c s IH]; simpl; [reflexivity|]. now rewrite Ascii.eqb_refl. Qed.

Lemma replace_scan_skip old new s : forall k,
  String.length s <= k -> PyStr.replace_scan old new k s = "".
Proof.
  induction s as [|c s IH]; intros k Hk; [reflexivity|].
  simpl in Hk. destruct k as [|k]; [lia|]. simpl. apply IH. lia.
Qed.

Lemma replace_self s new : s <> "" -> PyStr.replace s new s = new.
Proof.
  destruct s as [|c s]; [congruence|]. intros _.
  unfold PyStr.replace. cbn [PyStr.replace_scan]. rewrite startswith_refl.
  rewrite replace_scan_skip.
  - clear. induction new; simpl; congruence.
  - simpl. lia.
Qed.

(** X7: when the pattern finds the whole subject (as the universal pattern
    does), a colouring terminal gets the subject between the colour and the
    reset sequences, on one line. *)
Theorem matchPatterns_highlights_whole (re : pattern) (text ck : string) :
  findall re text = [MStr text] ->
  text <> "" ->
  SUPPORTS_TERMINAL_COLORING h = true ->
  encode_error h (colorPatterns ck text ++ nl)%string = None ->
  matchPatterns h re text true false ck
  = ([Findall text; Stdout (colorPatterns ck text ++ nl)%string], Ret true).
Proof.
  intros Hf Ht Hc He. unfold matchPatterns. rewrite Hf, Hc.
  cbn [highlight]. rewrite (replace_self text _ Ht).
  rewrite bind_ret_l. unfold handlePrint.
  assert (Hn : PyStr.truthy (colorPatterns ck text) = true).
  { unfold colorPatterns, HIGHLIGHT. reflexivity. }
  rewrite Hn, He. reflexivity.
Qed.

End Matcher.

Lemma matchPatterns_silent_witness :
  matchPatterns (Demo.posix Demo.tree true true) Demo.whole "d/a" false false RED
  = ([Findall "d/a"], Ret true).
Proof.
  apply (matchPatterns_silent (Demo.posix Demo.tree true true) Demo.whole "d/a"
           false false RED).
  right. split; reflexivity.
Defined.

Lemma matchPatterns_highlights_whole_witness :
  matchPatterns (Demo.posix Demo.tree true true) Demo.whole "d/a" true false RED
  = ([Findall "d/a"; Stdout (colorPatterns RED "d/a" ++ nl)%string], Ret true).
Proof.
  apply matchPatterns_highlights_whole; try reflexivity. discriminate.
Defined.

(** ** The traversal, call by call *)

Lemma bind_ret_r (m : M unit) : bind m (fun _ => ret tt) = m.
Proof.
  destruct m as [t [[]| |]]; simpl; try reflexivity. now rewrite app_nil_r.
Qed.

Lemma for_each_prefix {A} (W : A -> list event) (l : list A) (body : A -> M unit) :
  (forall x, In x l ->
     exists r, W x = fst (body x) ++ r /\ (snd (body x) = Ret tt -> r = [])) ->
  exists r, flat_map W l = fst (for_each l body) ++ r
            /\ (snd (for_each l body) = Ret tt -> r = []).
Proof.
  induction l as [|x l IH]; intros H.
  - exists []. split; reflexivity.
  - destruct (H x (or_introl eq_refl)) as (rx & Hx & Hrx).
    destruct IH as (rl & Hl & Hrl); [intros y Hy; apply H; now right|].
    cbn [flat_map for_each]. rewrite bind_fst, bind_snd.
    destruct (snd (body x)) as [[]|e|] eqn:E.
    + rewrite (Hrx eq_refl), app_nil_r in Hx. exists rl. split; [|exact Hrl].
      rewrite Hx, Hl, app_assoc. reflexivity.
    + exists (rx ++ flat_map W l). split; [|discriminate].
      rewrite Hx, app_nil_r, app_assoc. reflexivity.
    + exists (rx ++ flat_map W l). split; [|discriminate].
      rewrite Hx, app_nil_r, app_assoc. reflexivity.
Qed.

Lemma for_each_all_ret {A} (l : list A) (body : A -> M unit) :
  (forall x, In x l -> snd (body x) = Ret tt) -> snd (for_each l body) = Ret tt.
Proof.
  induction l as [|x l IH]; intros H; [reflexivity|].
  cbn [for_each]. rewrite bind_snd, (H x (or_introl eq_refl)).
  apply IH. intros y Hy. apply H. now right.
Qed.

Lemma for_each_raise {A} (l : list A) (body : A -> M unit) e :
  snd (for_each l body) = Raise e -> exists x, In x l /\ snd (body x) = Raise e.
Proof.
  induction l as [|x l IH]; [discriminate|].
  cbn [for_each]. rewrite bind_snd. destruct (snd (body x)) eqn:E.
  - intros H. destruct (IH H) as (y & Hy & He). exists y.
    split; [now right|assumption].
  - intros [= <-]. exists x. split; [now left|exact E].
  - discriminate.
Qed.

Lemma flat_map_nested {A B C} (f : B -> list C) (g : A -> list B) (l : list A) :
  flat_map f (flat_map g l) = flat_map (fun x => flat_map f (g x)) l.
Proof.
  induction l as [|x l IH]; [reflexivity|].
  cbn [flat_map]. now rewrite flat_map_app, IH.
Qed.

Section Unrolled.

Variable h : host.

(** A call of [treeTraverse] is the visit of its path followed by the calls
    on the children, when the path passed the guards and is a directory. *)
Lemma treeTraverse_fuel_visit fuel p d re act v o ck :
  (d <? 0)%Z = false ->
  treeTraverse_fuel h (S fuel) p d (Some re) act v o ck
  = bind (visit h re act v o ck p) (fun _ =>
      if guards_ok h p && is_dir h p
      then for_each (listdir h p) (fun child =>
             treeTraverse_fuel h fuel (path_join h p child) (d - 1)
               (Some re) act v o ck)
      else ret tt).
Proof.
  intros Hd. rewrite treeTraverse_fuel_step, Hd. unfold visit, guards_ok.
  destruct (path_exists h p); cbn [negb andb]; [|now rewrite bind_ret_r].
  destruct (access_r h p); cbn [negb andb]; [|now rewrite bind_ret_r].
  rewrite !bind_assoc.
  destruct (matchPatterns h re p v o ck) as [t [m| |]]; try reflexivity.
  cbn [bind]. rewrite !bind_assoc.
  match goal with
  | |- context [bind ?a _] => destruct a as [t' [[]| |]]; try reflexivity
  end.
  cbn [bind]. destruct (is_dir h p); reflexivity.
Qed.

Lemma treeTraverse_fuel_floor fuel p re act v o ck :
  treeTraverse_fuel h (S fuel) p (-1) (Some re) act v o ck = ret tt.
Proof. reflexivity. Qed.

Lemma for_each_ret_tt {A} (l : list A) (body : A -> M unit) :
  (forall x, body x = ret tt) -> for_each l body = ret tt.
Proof.
  intros H. induction l as [|x l IH]; [reflexivity|].
  cbn [for_each]. now rewrite H, bind_ret_l.
Qed.

(** The trace of a traversal is made of the visits of the paths it reaches,
    in the order of [reach]: all of them when it ends normally, the first of
    them when it raises. *)
Lemma treeTraverse_fuel_unrolled fuel :
  forall p d re act v o ck,
    (0 <= d)%Z -> (Z.to_nat (d + 1) < fuel)%nat ->
    exists rest,
      flat_map (fun q => fst (visit h re act v o ck q)) (reach h (Z.to_nat d) p)
      = fst (treeTraverse_fuel h fuel p d (Some re) act v o ck) ++ rest
      /\ (snd (treeTraverse_fuel h fuel p d (Some re) act v o ck) = Ret tt ->
          rest = []).
Proof.
  induction fuel as [|fuel IH]; intros p d re act v o ck Hd Hf; [lia|].
  assert (E1 : (d <? 0)%Z = false) by (apply Z.ltb_ge; lia).
  rewrite (treeTraverse_fuel_visit _ _ _ _ _ _ _ _ E1).
  rewrite bind_fst, bind_snd.
  set (V := visit h re act v o ck p).
  set (node := fun q => fst (visit h re act v o ck q)).
  destruct (guards_ok h p && is_dir h p) eqn:Ec.
  - destruct (Z.eq_dec d 0) as [->|Hne].
    + (* the last level: the children are called below the floor *)
      cbn [Z.to_nat reach flat_map]. fold V.
      destruct fuel as [|fuel]; [simpl in Hf; lia|].
      rewrite for_each_ret_tt by (intros c; apply treeTraverse_fuel_floor).
      exists []. split; [|reflexivity].
      destruct (snd V); simpl; now rewrite ?app_nil_r.
    + assert (Hk : Z.to_nat d = S (Z.to_nat (d - 1))) by lia.
      rewrite Hk. cbn [reach flat_map]. rewrite Ec. fold V.
      rewrite flat_map_nested.
      destruct (for_each_prefix
                  (fun c => flat_map node (reach h (Z.to_nat (d - 1)) (path_join h p c)))
                  (listdir h p)
                  (fun child => treeTraverse_fuel h fuel (path_join h p child) (d - 1)
                                  (Some re) act v o ck)) as (r & Hr & Hret).
      { intros c _. apply IH; lia. }
      destruct (snd V) as [[]|e|].
      * exists r. split; [|exact Hret]. unfold node in *. rewrite Hr.
        now rewrite app_assoc.
      * rewrite app_nil_r. eexists. split; [reflexivity|discriminate].
      * rewrite app_nil_r. eexists. split; [reflexivity|discriminate].
  - assert (Ht : reach h (Z.to_nat d) p = [p]).
    { destruct (Z.to_nat d); cbn [reach]; [reflexivity|]. now rewrite Ec. }
    rewrite Ht. cbn [flat_map]. fold V. exists []. split; [|reflexivity].
    destruct (snd V); simpl; now rewrite ?app_nil_r.
Qed.

(** Every event of a traversal belongs to the visit of a path. *)
Lemma treeTraverse_event p d re act v o ck e :
  In e (fst (treeTraverse h p d (Some re) act v o ck)) ->
  exists q, In e (fst (visit h re act v o ck q)).
Proof.
  intros H. destruct (Z.ltb_spec d 0) as [Hd|Hd].
  - unfold treeTraverse, fuel_for in H. cbn [treeTraverse_fuel] in H.
    apply Z.ltb_lt in Hd. rewrite Hd in H. destruct H.
  - destruct (treeTraverse_fuel_unrolled (fuel_for d) p d re act v o ck Hd)
      as (rest & Hr & _); [unfold fuel_for; lia|].
    assert (Hin : In e (flat_map (fun q => fst (visit h re act v o ck q))
                          (reach h (Z.to_nat d) p))).
    { rewrite Hr. apply in_or_app. left. exact H. }
    apply in_flat_map in Hin. destruct Hin as (q & _ & Hq). eauto.
Qed.

(** *** What a visit leaves in the trace *)

Lemma matchPatterns_shape re text v o ck :
  exists outs, fst (matchPatterns h re text v o ck) = Findall text :: outs
               /\ Forall (fun e => is_output e = true) outs.
Proof.
  unfold matchPatterns. rewrite bind_fst. cbn [emit fst snd app].
  eexists. split; [reflexivity|]. apply Forall_forall. intros e H.
  destruct (findall re text) as [|i rest]; [destruct H|].
  destruct o.
  - destruct (strings_of (i :: rest)); [|destruct H].
    apply bind_in in H. destruct H as [H|(a & _ & [])].
    destruct (SUPPORTS_TERMINAL_COLORING h); eapply handlePrint_events; eassumption.
  - apply bind_in in H. destruct H as [H|(a & _ & [])].
    destruct v; [|destruct H].
    apply bind_in in H. destruct H as [H|(a & _ & H)];
      [|eapply handlePrint_events; eassumption].
    destruct (SUPPORTS_TERMINAL_COLORING h); [|destruct H].
    rewrite highlight_fst in H. destruct H.
Qed.

Lemma project_none {A} (f : event -> list A) (t : list event) :
  (forall e, In e t -> f e = []) -> flat_map f t = [].
Proof.
  induction t as [|e t IH]; intros H; [reflexivity|].
  cbn [flat_map]. rewrite (H e (or_introl eq_refl)), IH; auto.
  intros e' He'. apply H. now right.
Qed.

Lemma project_bind {A B C} (f : event -> list A) (m : M B) (k : B -> M C) :
  flat_map f (fst (bind m k))
  = flat_map f (fst m)
    ++ match snd m with Ret a => flat_map f (fst (k a)) | _ => [] end.
Proof.
  rewrite bind_fst, flat_map_app. destruct (snd m); reflexivity.
Qed.

Lemma visit_unfold re act v o ck p :
  guards_ok h p = true ->
  visit h re act v o ck p
  = bind (matchPatterns h re p v o ck) (fun m =>
    bind (act_part h act m p) (fun _ =>
    if is_dir h p then emit (Listdir p) else ret tt)).
Proof.
  unfold guards_ok, visit. intros H. apply andb_true_iff in H.
  destruct H as [-> ->]. reflexivity.
Qed.

Lemma visit_blocked re act v o ck p :
  guards_ok h p = false ->
  exists msg, visit h re act v o ck p = emit (Stderr msg).
Proof.
  unfold guards_ok, visit. intros H.
  destruct (path_exists h p); cbn [negb]; [|eauto].
  destruct (access_r h p); cbn [negb]; [discriminate H|eauto].
Qed.

Lemma act_part_events act m p e :
  In e (fst (act_part h act m p)) -> dispatch_event e = true.
Proof. apply act_events. Qed.

(** The matcher runs once in a visit, on the path, if the guards pass. *)
Lemma visit_evaluated re act v o ck p :
  evaluated (fst (visit h re act v o ck p)) = if guards_ok h p then [p] else [].
Proof.
  destruct (guards_ok h p) eqn:G.
  - rewrite (visit_unfold _ _ _ _ _ _ G). unfold evaluated.
    rewrite project_bind.
    destruct (matchPatterns_shape re p v o ck) as (outs & -> & Ho).
    cbn [flat_map]. rewrite (project_none _ outs).
    2:{ intros e He. rewrite Forall_forall in Ho. specialize (Ho e He).
        destruct e; try discriminate Ho; reflexivity. }
    cbn [app]. f_equal.
    destruct (snd (matchPatterns h re p v o ck)) as [m| |]; try reflexivity.
    apply project_none. intros e He.
    apply bind_in in He. destruct He as [He|(a & _ & He)].
    + apply act_part_events in He. destruct e; try discriminate He; reflexivity.
    + destruct (is_dir h p); [|destruct He].
      destruct He as [<-|[]]. reflexivity.
  - destruct (visit_blocked re act v o ck p G) as (msg & ->). reflexivity.
Qed.

(** A visit lists the path when it passed the guards, is a directory, and
    neither the matcher nor the action raised. *)
Lemma visit_listed re act v o ck p :
  snd (visit h re act v o ck p) = Ret tt ->
  listed (fst (visit h re act v o ck p))
  = if guards_ok h p && is_dir h p then [p] else [].
Proof.
  destruct (guards_ok h p) eqn:G.
  - rewrite (visit_unfold _ _ _ _ _ _ G). unfold listed. intros Hret.
    apply bind_ret_inv in Hret. destruct Hret as (m & Hm & Hret).
    apply bind_ret_inv in Hret. destruct Hret as ([] & Ha & _).
    rewrite project_bind, Hm, project_bind, Ha.
    rewrite (project_none _ (fst (matchPatterns h re p v o ck))).
    2:{ intros e He. apply matchPatterns_events in He.
        destruct e; try discriminate He; reflexivity. }
    rewrite (project_none _ (fst (act_part h act m p))).
    2:{ intros e He. apply act_part_events in He.
        destruct e; try discriminate He; reflexivity. }
    cbn [app andb]. destruct (is_dir h p); reflexivity.
  - intros _. destruct (visit_blocked re act v o ck p G) as (msg & ->). reflexivity.
Qed.

Lemma visit_returns re act v o ck p :
  only_strings re ->
  (on_windows_nt h = true \/ action_set act = None \/
   forall argv, popen_ok h argv = true) ->
  snd (visit h re act v o ck p) = Ret tt.
Proof.
  intros Hs Hl. destruct (guards_ok h p) eqn:G.
  - rewrite (visit_unfold _ _ _ _ _ _ G).
    rewrite bind_snd, (matchPatterns_returns h re p v o ck Hs), bind_snd.
    assert (Ha : snd (act_part h act (matches re p) p) = Ret tt).
    { unfold act_part. destruct (matches re p); [|reflexivity].
      destruct (action_set act) as [a|] eqn:Ea; [|reflexivity].
      destruct (on_windows_nt h) eqn:Hnt.
      - unfold handleFunctionExecution. rewrite Hnt, bind_snd. simpl.
        apply handlePrint_snd.
      - rewrite (handleFunctionExecution_posix h _ _ Hnt).
        destruct Hl as [Hl|[Hl|Hl]]; [discriminate|discriminate|].
        now rewrite Hl. }
    rewrite Ha. destruct (is_dir h p); reflexivity.
  - destruct (visit_blocked re act v o ck p G) as (msg & ->). reflexivity.
Qed.

(** The paths that pass the guards among those reached, in order. *)
Lemma reach_walk k : forall p,
  flat_map (fun q => if guards_ok h q then [q] else []) (reach h k p) = walk h k p.
Proof.
  induction k as [|k IH]; intros p; cbn [reach walk flat_map].
  - destruct (guards_ok h p); reflexivity.
  - destruct (guards_ok h p); cbn [andb app].
    + f_equal. destruct (is_dir h p); [|reflexivity].
      rewrite flat_map_nested. apply flat_map_ext. intros c. apply IH.
    + reflexivity.
Qed.

End Unrolled.

Lemma flat_map_ext_on {A B} (f g : A -> list B) (l : list A) :
  (forall x, In x l -> f x = g x) -> flat_map f l = flat_map g l.
Proof.
  induction l as [|x l IH]; intros H; [reflexivity|].
  cbn [flat_map]. rewrite (H x (or_introl eq_refl)), IH; auto.
  intros y Hy. apply H. now right.
Qed.

Lemma flat_map_guarded {A B} (ok P : A -> bool) (f : A -> B) (l : list A) :
  flat_map (fun q => if ok q && P q then [f q] else []) l
  = map f (filter P (flat_map (fun q => if ok q then [q] else []) l)).
Proof.
  induction l as [|x l IH]; [reflexivity|].
  cbn [flat_map]. rewrite filter_app, map_app, <- IH.
  destruct (ok x); cbn [andb]; [|reflexivity].
  cbn [filter]. destruct (P x); reflexivity.
Qed.

Section Order.

Variable h : host.

(** In a traversal that ends normally every visit ended normally. *)
Lemma treeTraverse_fuel_visits_ret fuel :
  forall p d re act v o ck,
    (0 <= d)%Z ->
    snd (treeTraverse_fuel h fuel p d (Some re) act v o ck) = Ret tt ->
    forall q, In q (reach h (Z.to_nat d) p) ->
      snd (visit h re act v o ck q) = Ret tt.
Proof.
  induction fuel as [|fuel IH]; intros p d re act v o ck Hd Hret q Hq;
    [discriminate Hret|].
  assert (E1 : (d <? 0)%Z = false) by (apply Z.ltb_ge; lia).
  rewrite (treeTraverse_fuel_visit _ _ _ _ _ _ _ _ _ E1) in Hret.
  apply bind_ret_inv in Hret. destruct Hret as ([] & HV & HC).
  destruct (Z.to_nat d) as [|k] eqn:Hk; cbn [reach] in Hq.
  - destruct Hq as [<-|[]]. exact HV.
  - destruct Hq as [<-|Hq]; [exact HV|].
    destruct (guards_ok h p && is_dir h p); [|destruct Hq].
    apply in_flat_map in Hq. destruct Hq as (c & Hc & Hq).
    destruct (for_each_ret _ _ HC c Hc) as [Hcr _].
    apply (IH _ (d - 1)%Z re act v o ck ltac:(lia) Hcr).
    replace (Z.to_nat (d - 1)) with k by lia. exact Hq.
Qed.

Lemma treeTraverse_unrolled p d re act v o ck :
  (0 <= d)%Z ->
  snd (treeTraverse h p d (Some re) act v o ck) = Ret tt ->
  fst (treeTraverse h p d (Some re) act v o ck)
  = flat_map (fun q => fst (visit h re act v o ck q)) (reach h (Z.to_nat d) p)
  /\ forall q, In q (reach h (Z.to_nat d) p) ->
       snd (visit h re act v o ck q) = Ret tt.
Proof.
  intros Hd Hret. split.
  - destruct (treeTraverse_fuel_unrolled h (fuel_for d) p d re act v o ck Hd)
      as (rest & Hr & Hnil); [unfold fuel_for; lia|].
    rewrite Hr, (Hnil Hret), app_nil_r. reflexivity.
  - exact (treeTraverse_fuel_visits_ret _ _ _ _ _ _ _ _ Hd Hret).
Qed.

End Order.

(** ** The order of a traversal *)

(** X8: [treeTraverse] evaluates the entries in pre-order, each once per
    occurrence: the root before its children, the children in the order of
    [os.listdir], and an entry that does not exist or cannot be read is left
    out with all that is below it. A run that raises has evaluated an initial
    segment of that order. *)
Theorem treeTraverse_preorder (h : host) (root : string) (D : Z) (re : pattern)
        (act : option string) (v o : bool) (ck : string) :
  (0 <= D)%Z ->
  let run := treeTraverse h root D (Some re) act v o ck in
  (exists rest, walk h (Z.to_nat D) root = evaluated (fst run) ++ rest) /\
  (snd run = Ret tt -> evaluated (fst run) = walk h (Z.to_nat D) root).
Proof.
  intros HD run.
  destruct (treeTraverse_fuel_unrolled h (fuel_for D) root D re act v o ck HD)
    as (rest & Hr & Hnil); [unfold fuel_for; lia|].
  fold (treeTraverse h root D (Some re) act v o ck) in Hr, Hnil. fold run in Hr, Hnil.
  assert (E : walk h (Z.to_nat D) root = evaluated (fst run) ++ evaluated rest).
  { rewrite <- (reach_walk h). unfold evaluated at 1 2. rewrite <- flat_map_app, <- Hr.
    rewrite flat_map_nested. apply flat_map_ext. intros q.
    symmetry. apply (visit_evaluated h). }
  split.
  - exists (evaluated rest). exact E.
  - intros Hret. rewrite E, (Hnil Hret). cbn. now rewrite app_nil_r.
Qed.

Lemma demo_walk_normal :
  snd (treeTraverse (Demo.posix Demo.tree true true) "d" 2 (Some Demo.whole)
         None true false RED) = Ret tt.
Proof. reflexivity. Qed.

Lemma treeTraverse_preorder_witness :
  evaluated (fst (treeTraverse (Demo.posix Demo.tree true true) "d" 2
                    (Some Demo.whole) None true false RED))
  = ["d"; "d/a"; "d/b"; "d/b/c"].
Proof.
  destruct (treeTraverse_preorder (Demo.posix Demo.tree true true) "d" 2
              Demo.whole None true false RED ltac:(lia)) as [_ H].
  rewrite (H demo_walk_normal). reflexivity.
Defined.

(** X9: in a traversal that ends normally every evaluated directory is listed,
    once and in the order of the evaluation, those of the last level
    included, whose children are then not evaluated; nothing else is
    listed. *)
Theorem treeTraverse_lists_evaluated_directories
        (h : host) (root : string) (D : Z) (re : pattern)
        (act : option string) (v o : bool) (ck : string) :
  (0 <= D)%Z ->
  snd (treeTraverse h root D (Some re) act v o ck) = Ret tt ->
  listed (fst (treeTraverse h root D (Some re) act v o ck))
  = filter (is_dir h) (walk h (Z.to_nat D) root).
Proof.
  intros HD Hret.
  destruct (treeTraverse_unrolled h root D re act v o ck HD Hret) as [-> Hv].
  unfold listed. rewrite flat_map_nested.
  rewrite (flat_map_ext_on _ (fun q => if guards_ok h q && is_dir h q then [q] else [])).
  2:{ intros q Hq. apply (visit_listed h). now apply Hv. }
  rewrite (flat_map_guarded (guards_ok h) (is_dir h) (fun q => q)).
  rewrite map_id, reach_walk. reflexivity.
Qed.

Lemma treeTraverse_lists_evaluated_directories_witness :
  let run := treeTraverse (Demo.posix Demo.tree true true) "d" 1 (Some Demo.whole)
               None true false RED in
  evaluated (fst run) = ["d"; "d/a"; "d/b"] /\ listed (fst run) = ["d"; "d/b"].
Proof.
  intros run. split; [reflexivity|].
  unfold run.
  rewrite (treeTraverse_lists_evaluated_directories
             (Demo.posix Demo.tree true true) "d" 1 Demo.whole None true false RED
             ltac:(lia) eq_refl).
  reflexivity.
Defined.

Section Launches.

Variable h : host.

Lemma visit_launched re act v o ck p a :
  on_windows_nt h = false -> action_set act = Some a ->
  snd (visit h re act v o ck p) = Ret tt ->
  launched (fst (visit h re act v o ck p))
  = if guards_ok h p && matches re p then [popen_argv a p] else [].
Proof.
  intros Hnt Ha. destruct (guards_ok h p) eqn:G.
  - rewrite (visit_unfold _ _ _ _ _ _ _ G). unfold launched. intros Hret.
    apply bind_ret_inv in Hret. destruct Hret as (m & Hm & Hret).
    apply bind_ret_inv in Hret. destruct Hret as ([] & Hact & _).
    pose proof (matchPatterns_value h _ _ _ _ _ _ Hm) as ->.
    rewrite project_bind, Hm, project_bind, Hact.
    rewrite (project_none _ (fst (matchPatterns h re p v o ck))).
    2:{ intros e He. apply matchPatterns_events in He.
        destruct e; try discriminate He; reflexivity. }
    rewrite (project_none _ (fst (if is_dir h p then emit (Listdir p) else ret tt))).
    2:{ intros e He. destruct (is_dir h p); [|destruct He].
        destruct He as [<-|[]]. reflexivity. }
    cbn [app andb]. rewrite app_nil_r. unfold act_part in *. rewrite Ha in *.
    destruct (matches re p); [|reflexivity].
    rewrite (handleFunctionExecution_posix h _ _ Hnt). reflexivity.
  - intros _. destruct (visit_blocked h re act v o ck p G) as (msg & ->). reflexivity.
Qed.

End Launches.

(** X10: on a POSIX-like platform, in a traversal that ends normally with an
    action configured, the action is launched once for each evaluated entry
    the pattern matches, in the order of the evaluation, and for nothing
    else. *)
Theorem treeTraverse_launches_once_per_match
        (h : host) (root : string) (D : Z) (re : pattern)
        (act : option string) (a : string) (v o : bool) (ck : string) :
  (0 <= D)%Z ->
  on_windows_nt h = false ->
  action_set act = Some a ->
  snd (treeTraverse h root D (Some re) act v o ck) = Ret tt ->
  launched (fst (treeTraverse h root D (Some re) act v o ck))
  = map (popen_argv a) (filter (matches re) (walk h (Z.to_nat D) root)).
Proof.
  intros HD Hnt Ha Hret.
  destruct (treeTraverse_unrolled h root D re act v o ck HD Hret) as [-> Hv].
  unfold launched. rewrite flat_map_nested.
  rewrite (flat_map_ext_on _
             (fun q => if guards_ok h q && matches re q then [popen_argv a q] else [])).
  2:{ intros q Hq. apply (visit_launched h); auto. }
  rewrite flat_map_guarded, reach_walk. reflexivity.
Qed.

Lemma treeTraverse_launches_once_per_match_witness :
  launched (fst (treeTraverse (Demo.posix Demo.tree true true) "d" 1
                   (Some Demo.whole) (Some "ls {}") true false RED))
  = [["ls"; "d"]; ["ls"; "d/a"]; ["ls"; "d/b"]].
Proof.
  rewrite (treeTraverse_launches_once_per_match
             (Demo.posix Demo.tree true true) "d" 1 Demo.whole (Some "ls {}") "ls {}"
             true false RED ltac:(lia) eq_refl eq_refl eq_refl).
  reflexivity.
Defined.

(** ** Runs that end normally, and what a run never does *)

Section Normal.

Variable h : host.

Lemma treeTraverse_fuel_returns fuel :
  forall p d re act v o ck,
    only_strings re ->
    (on_windows_nt h = true \/ action_set act = None \/
     forall argv, popen_ok h argv = true) ->
    (Z.to_nat (d + 1) < fuel)%nat ->
    snd (treeTraverse_fuel h fuel p d (Some re) act v o ck) = Ret tt.
Proof.
  induction fuel as [|fuel IH]; intros p d re act v o ck Hs Hl Hf; [lia|].
  destruct (d <? 0)%Z eqn:E1.
  - rewrite treeTraverse_fuel_step, E1. reflexivity.
  - rewrite (treeTraverse_fuel_visit _ _ _ _ _ _ _ _ _ E1), bind_snd.
    rewrite (visit_returns h re act v o ck p Hs Hl).
    destruct (guards_ok h p && is_dir h p); [|reflexivity].
    apply for_each_all_ret. intros c _. apply IH; auto.
    apply Z.ltb_ge in E1. lia.
Qed.

Lemma visit_no_process re act v o ck p e :
  action_set act = None ->
  In e (fst (visit h re act v o ck p)) -> starts_process e = false.
Proof.
  intros Ha. destruct (guards_ok h p) eqn:G.
  - rewrite (visit_unfold _ _ _ _ _ _ _ G). intros H.
    apply bind_in in H. destruct H as [H|(m & _ & H)].
    { apply matchPatterns_events in H. destruct e; try discriminate H; reflexivity. }
    apply bind_in in H. destruct H as [H|(u & _ & H)].
    { unfold act_part in H. rewrite Ha in H. destruct m; destruct H. }
    destruct (is_dir h p); [|destruct H]. destruct H as [<-|[]]. reflexivity.
  - destruct (visit_blocked h re act v o ck p G) as (msg & ->).
    intros [<-|[]]. reflexivity.
Qed.


End Normal.

(** X11: a traversal ends normally, whatever the tree, when the pattern yields
    strings (it has at most one group) and no launch can fail: the platform
    is Windows NT, or no action is configured, or every process starts. *)
Theorem treeTraverse_completes (h : host) (root : string) (D : Z) (re : pattern)
        (act : option string) (v o : bool) (ck : string) :
  only_strings re ->
  on_windows_nt h = true \/ action_set act = None \/
  (forall argv, popen_ok h argv = true) ->
  snd (treeTraverse h root D (Some re) act v o ck) = Ret tt.
Proof.
  intros Hs Hl. apply treeTraverse_fuel_returns; auto; unfold fuel_for; lia.
Qed.

Lemma whole_only_strings : only_strings Demo.whole.
Proof. intros text. discriminate. Qed.

Lemma treeTraverse_completes_witness :
  snd (treeTraverse (Demo.posix Demo.tree_locked false true) "d" 5 (Some Demo.whole)
         (Some "") true true RED) = Ret tt.
Proof.
  apply treeTraverse_completes; [exact whole_only_strings|].
  right; left. reflexivity.
Defined.

(** X12: without an action a traversal starts no process: neither [Popen] nor
    [os.popen] is called. *)
Theorem treeTraverse_without_action (h : host) (root : string) (D : Z)
        (regexCompile : option pattern) (act : option string) (v o : bool)
        (ck : string) (e : event) :
  action_set act = None ->
  In e (fst (treeTraverse h root D regexCompile act v o ck)) ->
  starts_process e = false.
Proof.
  intros Ha H. destruct regexCompile as [re|].
  - apply treeTraverse_event in H. destruct H as (q & Hq).
    exact (visit_no_process h re act v o ck q e Ha Hq).
  - destruct H as [<-|[]]. reflexivity.
Qed.

Lemma treeTraverse_without_action_witness :
  let run := treeTraverse (Demo.posix Demo.tree true true) "d" 1 (Some Demo.whole)
               (Some "") true false RED in
  In (Listdir "d") (fst run) /\ starts_process (Listdir "d") = false.
Proof.
  intros run.
  assert (Hin : In (Listdir "d") (fst run)) by (vm_compute; auto).
  split; [exact Hin|].
  exact (treeTraverse_without_action (Demo.posix Demo.tree true true) "d" 1
           (Some Demo.whole) (Some "") true false RED _ eq_refl Hin).
Defined.



(** ** More on the filter *)

Lemma lstrip_nl_spec s :
  exists a, s = (a ++ PyStr.lstrip_nl s)%string
            /\ all_chars PyStr.newline a = true
            /\ starts_with PyStr.newline (PyStr.lstrip_nl s) = false.
Proof.
  induction s as [|c s (a & Ha & Hall & Hst)].
  - exists "". repeat split.
  - cbn [PyStr.lstrip_nl]. destruct (Ascii.eqb c PyStr.newline) eqn:E.
    + exists (String c a). repeat split.
      * simpl. now rewrite <- Ha.
      * simpl. now rewrite E, Hall.
      * exact Hst.
    + exists "". repeat split. simpl. exact E.
Qed.

Lemma rstrip_nl_spec t :
  exists b, t = (PyStr.rstrip_nl t ++ b)%string
            /\ all_chars PyStr.newline b = true
            /\ ends_with PyStr.newline (PyStr.rstrip_nl t) = false
            /\ (starts_with PyStr.newline t = false ->
                starts_with PyStr.newline (PyStr.rstrip_nl t) = false).
Proof.
  induction t as [|c t (b & Hb & Hall & Hend & _)].
  - exists "". repeat split.
  - cbn [PyStr.rstrip_nl]. destruct (PyStr.rstrip_nl t) as [|x r] eqn:Er.
    + destruct (Ascii.eqb c PyStr.newline) eqn:E.
      * exists (String c b). repeat split.
        -- simpl in *. now rewrite <- Hb.
        -- simpl. now rewrite E, Hall.
      * exists b. repeat split.
        -- simpl in *. now rewrite <- Hb.
        -- exact Hall.
        -- simpl. exact E.
        -- intros _. simpl. exact E.
    + exists b. repeat split.
      * simpl in *. now rewrite <- Hb.
      * exact Hall.
      * exact Hend.
      * intros H. exact H.
Qed.

(** X14: what the filter evaluates for a line is the line without the newline
    characters at its two ends, at the beginning as well as at the end, and
    with nothing else removed. *)
Theorem filterLine_subject (h : host) (re : pattern) (action : string)
        (v o : bool) (ck : string) (lineIn : string) :
  exists before subject after rest,
    lineIn = (before ++ subject ++ after)%string /\
    all_chars PyStr.newline before = true /\
    all_chars PyStr.newline after = true /\
    starts_with PyStr.newline subject = false /\
    ends_with PyStr.newline subject = false /\
    fst (filterLine h re action v o ck lineIn) = Findall subject :: rest.
Proof.
  destruct (lstrip_nl_spec lineIn) as (a & Ha & Haa & Hst).
  destruct (rstrip_nl_spec (PyStr.lstrip_nl lineIn)) as (b & Hb & Hbb & Hend & Hkeep).
  unfold filterLine.
  destruct (matchPatterns_head h re (PyStr.strip_nl lineIn) v o ck) as (t & Ht).
  exists a, (PyStr.strip_nl lineIn), b. eexists. repeat split.
  - unfold PyStr.strip_nl. rewrite <- Hb. exact Ha.
  - exact Haa.
  - exact Hbb.
  - exact (Hkeep Hst).
  - exact Hend.
  - rewrite bind_fst, Ht. reflexivity.
Qed.

Section Filter2.

Variable h : host.

(** The filter on the lines read before anything else happens. *)
Lemma filterStdin_app re action v o ck lines tail :
  Forall (fun l => l <> "") lines ->
  filterStdin h re action v o ck (map Line lines ++ tail)
  = bind (filterLines h re action v o ck lines)
         (fun _ => filterStdin h re action v o ck tail).
Proof.
  induction 1 as [|l ls Hl _ IH].
  - cbn [map app filterLines for_each]. now rewrite bind_ret_l.
  - cbn [map app filterStdin]. unfold filterLines in *. cbn [for_each].
    assert (E : String.eqb l "" = false) by now apply String.eqb_neq.
    rewrite E. cbn [negb]. rewrite IH. rewrite !bind_assoc. reflexivity.
Qed.

Lemma filterStdin_stop re action v o ck r rest :
  stops r = true ->
  filterStdin h re action v o ck (r :: rest) = filterStdin h re action v o ck [r].
Proof.
  destruct r as [s| |msg]; try reflexivity.
  simpl stops. intros E. cbn [filterStdin]. rewrite E. reflexivity.
Qed.

Lemma filterLine_returns re action v o ck lineIn :
  only_strings re ->
  (on_windows_nt h = true \/ action = "" \/ forall argv, popen_ok h argv = true) ->
  snd (filterLine h re action v o ck lineIn) = Ret tt.
Proof.
  intros Hs Hl. unfold filterLine.
  rewrite bind_snd, (matchPatterns_returns h re _ v o ck Hs).
  destruct (matches re (PyStr.strip_nl lineIn)); [|reflexivity].
  destruct (PyStr.truthy action) eqn:Ht; [|reflexivity]. cbn [andb].
  destruct (on_windows_nt h) eqn:Hnt.
  - unfold handleFunctionExecution. rewrite Hnt, bind_snd. simpl.
    apply handlePrint_snd.
  - rewrite (handleFunctionExecution_posix h _ _ Hnt).
    destruct Hl as [Hl|[->|Hl]]; [discriminate|discriminate Ht|].
    now rewrite Hl.
Qed.

Lemma filterLine_events re action v o ck lineIn e :
  In e (fst (filterLine h re action v o ck lineIn)) ->
  matcher_event e = true \/ dispatch_event e = true.
Proof.
  unfold filterLine. intros H. apply bind_in in H.
  destruct H as [H|(m & _ & H)].
  - left. eapply matchPatterns_events; eassumption.
  - right. destruct (m && PyStr.truthy action); [|destruct H].
    eapply handleFunctionExecution_events; eassumption.
Qed.

Lemma filterStdin_events re action v o ck stdin e :
  In e (fst (filterStdin h re action v o ck stdin)) ->
  is_readline e = true \/ matcher_event e = true \/ dispatch_event e = true.
Proof.
  induction stdin as [|r stdin IH]; cbn [filterStdin]; intros H.
  - apply bind_in in H. destruct H as [[<-|[]]|(u & _ & H)]; [now left|].
    right. eapply filterLine_events; eassumption.
  - destruct r as [l| |msg].
    + apply bind_in in H. destruct H as [[<-|[]]|(u & _ & H)]; [now left|].
      apply bind_in in H. destruct H as [H|(u' & _ & H)].
      * right. eapply filterLine_events; eassumption.
      * destruct (negb (String.eqb l "")); [auto|destruct H].
    + apply bind_in in H. destruct H as [[<-|[]]|(u & _ & H)]; [now left|].
      right. left. apply handlePrint_events in H. destruct e; try discriminate H; reflexivity.
    + apply bind_in in H. destruct H as [[<-|[]]|(u & _ & H)]; [now left|].
      right. left. apply handlePrint_events in H. destruct e; try discriminate H; reflexivity.
Qed.

Lemma filterStdin_returns re action v o ck stdin :
  only_strings re ->
  (on_windows_nt h = true \/ action = "" \/ forall argv, popen_ok h argv = true) ->
  snd (filterStdin h re action v o ck stdin) = Ret tt.
Proof.
  intros Hs Hl. induction stdin as [|r stdin IH]; cbn [filterStdin].
  - rewrite bind_snd. simpl. now apply filterLine_returns.
  - destruct r as [l| |msg].
    + rewrite bind_snd. simpl. rewrite bind_snd, filterLine_returns by assumption.
      destruct (negb (String.eqb l "")); [exact IH|reflexivity].
    + rewrite bind_snd. simpl. apply handlePrint_snd.
    + rewrite bind_snd. simpl. apply handlePrint_snd.
Qed.

End Filter2.

(** X15: once a read stops the filter (an empty read, an interrupt or a read
    fault), nothing that could follow on the standard input is read. *)
Theorem filterStdin_not_resumed (h : host) (re : pattern) (action : string)
        (v o : bool) (ck : string) (lines : list string) (r : read)
        (rest : list read) :
  Forall (fun l => l <> "") lines ->
  stops r = true ->
  filterStdin h re action v o ck (map Line lines ++ r :: rest)
  = filterStdin h re action v o ck (map Line lines ++ [r]).
Proof.
  intros Hl Hr. rewrite !filterStdin_app by assumption.
  now rewrite (filterStdin_stop h re action v o ck r rest Hr).
Qed.

Lemma filterStdin_not_resumed_witness :
  let h := Demo.posix Demo.tree true true in
  filterStdin h Demo.whole "" true false RED
    [Line ("a" ++ nl)%string; Interrupt; Line ("b" ++ nl)%string]
  = filterStdin h Demo.whole "" true false RED [Line ("a" ++ nl)%string; Interrupt].
Proof.
  intros h.
  apply (filterStdin_not_resumed h Demo.whole "" true false RED
           [("a" ++ nl)%string] Interrupt [Line ("b" ++ nl)%string]).
  - repeat constructor. discriminate.
  - reflexivity.
Defined.

(** X16: an interrupt or a fault of the read ends the filter normally: after the
    turns on the lines read so far, the farewell (or the text of the fault)
    is printed and nothing else happens. *)
Theorem filterStdin_interrupted (h : host) (re : pattern) (action : string)
        (v o : bool) (ck : string) (lines : list string) (rest : list read)
        (msg : string) :
  Forall (fun l => l <> "") lines ->
  snd (filterLines h re action v o ck lines) = Ret tt ->
  filterStdin h re action v o ck (map Line lines ++ Interrupt :: rest)
  = (fst (filterLines h re action v o ck lines)
     ++ Readline Interrupt
        :: fst (handlePrint h ("Ctrl-C applied." ++ nl ++ "Exiting now...")%string),
     Ret tt) /\
  filterStdin h re action v o ck (map Line lines ++ Fault msg :: rest)
  = (fst (filterLines h re action v o ck lines)
     ++ Readline (Fault msg) :: fst (handlePrint h msg),
     Ret tt).
Proof.
  intros Hl Hret. rewrite !filterStdin_app by assumption.
  destruct (filterLines h re action v o ck lines) as [t r]. simpl in Hret. subst r.
  cbn [bind filterStdin fst].
  split.
  - destruct (handlePrint h _) as [t' r'] eqn:E.
    pose proof (handlePrint_snd h ("Ctrl-C applied." ++ nl ++ "Exiting now...")%string) as Hs.
    rewrite E in Hs. simpl in Hs. subst r'. reflexivity.
  - destruct (handlePrint h msg) as [t' r'] eqn:E.
    pose proof (handlePrint_snd h msg) as Hs.
    rewrite E in Hs. simpl in Hs. subst r'. reflexivity.
Qed.

Lemma filterStdin_interrupted_witness :
  let h := Demo.posix Demo.tree true true in
  snd (filterStdin h Demo.whole "" true false RED
         [Line ("a" ++ nl)%string; Interrupt; Line ("b" ++ nl)%string]) = Ret tt.
Proof.
  intros h.
  destruct (filterStdin_interrupted h Demo.whole "" true false RED
              [("a" ++ nl)%string] [Line ("b" ++ nl)%string] "") as [H _].
  - repeat constructor. discriminate.
  - reflexivity.
  - cbn [map app] in H. rewrite H. reflexivity.
Defined.

(** X17: the filter ends normally on every input, interrupts and faults
    included, when the pattern yields strings and no launch can fail. *)
Theorem filterStdin_completes (h : host) (re : pattern) (action : string)
        (v o : bool) (ck : string) (stdin : list read) :
  only_strings re ->
  on_windows_nt h = true \/ action = "" \/ (forall argv, popen_ok h argv = true) ->
  snd (filterStdin h re action v o ck stdin) = Ret tt.
Proof. intros Hs Hl. now apply filterStdin_returns. Qed.

Lemma filterStdin_completes_witness :
  snd (filterStdin (Demo.posix Demo.tree true true) Demo.whole "echo {}" true true RED
         [Line ("a" ++ nl)%string; Fault "read error"]) = Ret tt.
Proof.
  apply filterStdin_completes; [exact whole_only_strings|].
  right; right. reflexivity.
Defined.

(** ** More on the entry point *)


Section Entry.

Variable h : host.






Lemma visit_events re act v o ck p e :
  In e (fst (visit h re act v o ck p)) ->
  matcher_event e = true \/ dispatch_event e = true \/ is_listdir e = true.
Proof.
  destruct (guards_ok h p) eqn:G.
  - rewrite (visit_unfold _ _ _ _ _ _ _ G). intros H.
    apply bind_in in H. destruct H as [H|(m & _ & H)].
    { left. eapply matchPatterns_events; eassumption. }
    apply bind_in in H. destruct H as [H|(u & _ & H)].
    { right; left. eapply act_part_events; eassumption. }
    destruct (is_dir h p); [|destruct H]. destruct H as [<-|[]]. auto.
  - destruct (visit_blocked h re act v o ck p G) as (msg & ->).
    intros [<-|[]]. auto.
Qed.

Lemma treeTraverse_events p d regexCompile act v o ck e :
  In e (fst (treeTraverse h p d regexCompile act v o ck)) ->
  matcher_event e = true \/ dispatch_event e = true \/ is_listdir e = true.
Proof.
  destruct regexCompile as [re|].
  - intros H. apply treeTraverse_event in H. destruct H as (q & Hq).
    eapply visit_events; eassumption.
  - intros [<-|[]]. auto.
Qed.

Lemma main_valid_depth o stdin d :
  to_int h (maxdepth o) = Some d -> (d <? 0)%Z = false ->
  main h o stdin = search h o d stdin.
Proof.
  intros Hd Hn. unfold main, search. rewrite Hd, bind_ret_l, Hn, bind_ret_l.
  reflexivity.
Qed.

Lemma compilePattern_fst regex args : fst (compilePattern h regex args) = [].
Proof.
  unfold compilePattern. destruct (re_compile h regex args); [reflexivity|].
  destruct (re_compile h UNIVERSAL args); reflexivity.
Qed.


End Entry.


(** X19: [main] works in one mode at a time: with a root path it never reads the
    standard input, and without one it never lists a directory. *)
Theorem main_modes (h : host) (o : options) (stdin : list read) (e : event) :
  In e (fst (main h o stdin)) ->
  (PyStr.truthy (targetPath o) = true -> is_readline e = false) /\
  (PyStr.truthy (targetPath o) = false -> is_listdir e = false).
Proof.
  intros H.
  assert (Hout : forall e', is_output e' = true ->
                            is_readline e' = false /\ is_listdir e' = false).
  { intros e' He'. destruct e'; try discriminate He'; split; reflexivity. }
  destruct (to_int h (maxdepth o)) as [d|] eqn:Hd.
  - destruct (d <? 0)%Z eqn:Hn.
    + unfold main in H. rewrite Hd, bind_ret_l, Hn in H.
      rewrite !bind_fst, !bind_snd, handlePrint_snd in H. simpl in H.
      rewrite !app_nil_r in H. apply handlePrint_events in H.
      destruct (Hout e H). split; auto.
    + rewrite (main_valid_depth h o stdin d Hd Hn) in H. unfold search in H.
      rewrite bind_fst, compilePattern_fst in H. cbn [app] in H.
      destruct (snd (compilePattern h _ _)) as [p| |]; [|destruct H..].
      destruct (PyStr.truthy (targetPath o)) eqn:Ht.
      * split; [intros _|discriminate].
        apply treeTraverse_events in H.
        destruct H as [H|[H|H]]; destruct e; try discriminate H; reflexivity.
      * split; [discriminate|intros _].
        apply filterStdin_events in H.
        destruct H as [H|[H|H]]; destruct e; try discriminate H; reflexivity.
  - unfold main in H. rewrite Hd in H. simpl in H. destruct H as [<-|[]].
    split; reflexivity.
Qed.

Lemma main_modes_witness :
  let h := Demo.posix Demo.tree true true in
  let o := {| targetPath := "d"; regular_expression := "a"; verbosity := true;
              action := ""; maxdepth := OInt 1; onlyMatches := false;
              ignoreCase := true |} in
  In (Listdir "d") (fst (main h o [Line ("x" ++ nl)%string]))
  /\ is_readline (Listdir "d") = false.
Proof.
  intros h o.
  assert (Hin : In (Listdir "d") (fst (main h o [Line ("x" ++ nl)%string])))
    by (vm_compute; auto).
  split; [exact Hin|].
  destruct (main_modes h o _ _ Hin) as [H _]. apply H. reflexivity.
Defined.
